(** * lit-ssr: the streaming template renderer (render-lit-html)

    A shallow embedding of [render], [renderValue] and [renderTemplateResult]
    (with its inner [flushTo], [skipTo] and [handleNode]) and the properties
    of the renderer that the specification states about them.

    The async generators are modelled as computations that read and update
    the objects the generators share (the instance stack of the RenderInfo,
    the claimed-node sets, the child renderers, the constructed elements,
    the console and the template cache), may throw, and append the chunks
    they yield to an output list.  A chunk remembers the [yield] statement
    it comes from; [chunk_text] gives the string that statement yields. *)

From stdpp Require Import base option list gmap strings pretty.
From Stdlib Require Import ZArith Lia.

Set Warnings "-register-all".

Open Scope string_scope.
Open Scope nat_scope.
Open Scope list_scope.

(** ** JavaScript string operations used by the renderer *)

Module Js.

(** [s.substring(a, b)]: both indices are clamped to the length of [s] and
    swapped when the first exceeds the second; an [undefined] start counts
    as [0] (NaN) and an [undefined] end as the length of [s]. *)
Definition substring (s : string) (a b : option nat) : string :=
  let len := String.length s in
  let a' := Nat.min (default 0 a) len in
  let b' := Nat.min (default len b) len in
  String.substring (Nat.min a' b') (Nat.max a' b' - Nat.min a' b') s.

(** [s.startsWith(p)] *)
Definition startsWith (s p : string) : bool := String.prefix p s.

(** [s.endsWith(p)] *)
Definition endsWith (s p : string) : bool :=
  let n := String.length s in
  let m := String.length p in
  Nat.leb m n && String.eqb (String.substring (n - m) m s) p.

(** [s.indexOf(c) !== -1] for a one-character needle *)
Fixpoint includesChar (c : Ascii.ascii) (s : string) : bool :=
  match s with
  | EmptyString => false
  | String d s' => Ascii.eqb c d || includesChar c s'
  end.

Definition hyphen : Ascii.ascii :=
  Ascii.Ascii true false true true false true false false.

(** [s.slice(1)] *)
Definition slice1 (s : string) : string :=
  match s with
  | EmptyString => EmptyString
  | String _ s' => s'
  end.

End Js.

(** ** Data model *)

(** parse5 source locations: [startOffset] and [endOffset] of a node, of a
    start tag or of an attribute. *)
Record Location := mkLoc { startOffset : nat; endOffset : nat }.

(** An entry of [node.attrs] together with its entry in
    [node.sourceCodeLocation.attrs]. *)
Record Attr := mkAttr {
  attr_name : string;
  attr_value : string;
  attr_loc : Location
}.

(** parse5 tree nodes.  [nid] stands for the identity of the node object,
    which is what [claimedNodes.has(node)] compares. *)
Inductive Node :=
| CommentNode (nid : nat) (data : string) (loc : Location)
| TextNode (nid : nat) (value : string) (loc : Location)
| Element (nid : nat) (tagName : string) (attrs : list Attr)
          (loc : Location) (startTag : Location) (childNodes : list Node).

Definition node_id (n : Node) : nat :=
  match n with
  | CommentNode i _ _ | TextNode i _ _ | Element i _ _ _ _ _ => i
  end.

Definition node_loc (n : Node) : Location :=
  match n with
  | CommentNode _ _ l | TextNode _ _ l | Element _ _ _ l _ _ => l
  end.

Definition isCommentNode (n : Node) : bool :=
  match n with CommentNode _ _ _ => true | _ => false end.

Definition isElement (n : Node) : bool :=
  match n with Element _ _ _ _ _ _ => true | _ => false end.

Definition isTextNode (n : Node) : bool :=
  match n with TextNode _ _ _ => true | _ => false end.

Definition node_childNodes (n : Node) : list Node :=
  match n with Element _ _ _ _ _ c => c | _ => [] end.

(** [getAttr(node, name)]: the value of the attribute called [name], or
    [undefined]. *)
Definition getAttr (n : Node) (name : string) : option string :=
  match n with
  | Element _ _ attrs _ _ _ =>
      attr_value <$> List.find (fun a => String.eqb (attr_name a) name) attrs
  | _ => None
  end.

(** Modelled from the spec: [depthFirst] of parse5-utils is not among the
    sources; the specification describes the walk as a depth-first,
    pre-order traversal of the tree's nodes, the node itself first. *)
Fixpoint depthFirst (n : Node) : list Node :=
  n :: match n with
       | Element _ _ _ _ _ children =>
           (fix go (l : list Node) : list Node :=
              match l with
              | [] => []
              | c :: l' => depthFirst c ++ go l'
              end) children
       | _ => []
       end.

(** What the template cache stores for a template: the joined markup and
    the child-node list of its parsed fragment ([None] when absent). *)
Record Template := mkTemplate {
  html : string;
  ast_childNodes : option (list Node)
}.

(** Dynamic values, by the tests [renderValue] and [handleNode] apply to
    them, and the TemplateResult that carries them. *)
Inductive Value :=
| VTemplate (t : TemplateResult)   (* value instanceof TemplateResult *)
| VUndefined
| VNull
| VRepeat (r : nat)                (* isRepeatDirective(value) *)
| VRenderLight                     (* isRenderLightDirective(value) *)
| VNothing                         (* value === nothing *)
| VArray (items : list Value)      (* Array.isArray(value) *)
| VClassMap (classes : string)     (* isClassMapDirective(value); its call result *)
| VPrim (s : string)               (* anything else; [s] is String(value) *)
with TemplateResult :=
| mkTemplateResult (stringsId : nat) (strings : list string) (values : list Value)
    (digest : string).

(** The identity of [result.strings]: a TemplateStringsArray is one object
    per template literal, and the template cache compares the objects, not
    their contents. *)
Definition stringsId (t : TemplateResult) : nat :=
  match t with mkTemplateResult i _ _ _ => i end.
Definition strings (t : TemplateResult) : list string :=
  match t with mkTemplateResult _ s _ _ => s end.
Definition values (t : TemplateResult) : list Value :=
  match t with mkTemplateResult _ _ v _ => v end.
Definition digest (t : TemplateResult) : string :=
  match t with mkTemplateResult _ _ _ d => d end.

(** The chunks the generators yield, one constructor per [yield] form. *)
Inductive Chunk :=
| COpen (dg : option string)        (* `<!--lit-part ${digest}-->` or `<!--lit-part-->` *)
| CClose                            (* `<!--/lit-part-->` *)
| CPlaceholder (dg : option string) (* open and close marker in one chunk *)
| CLit (s : string)                 (* a span of the template's markup *)
| CText (s : string)                (* String(value) *)
| CAttr (s : string)                (* a resolved bound attribute *)
| CAttrCount (n : nat)              (* ` __lit-attr="${boundAttrsCount}"` *)
| CRaw (s : string).                (* text yielded by a collaborator *)

(** The double-quote character, as a one-character string. *)
Definition dq : string :=
  String (Ascii.Ascii false true false false false true false false) EmptyString.

Definition open_text (dg : option string) : string :=
  match dg with
  | Some d => "<!--lit-part " +:+ d +:+ "-->"
  | None => "<!--lit-part-->"
  end.

Definition close_text : string := "<!--/lit-part-->".

Definition chunk_text (c : Chunk) : string :=
  match c with
  | COpen dg => open_text dg
  | CClose => close_text
  | CPlaceholder dg => open_text dg +:+ close_text
  | CLit s | CText s | CAttr s | CRaw s => s
  | CAttrCount n => " __lit-attr=" +:+ dq +:+ pretty n +:+ dq
  end.

(** ** The objects the generators share *)

Inductive Err :=
| TypeError (msg : string)
| Error (msg : string).

(** The outcome of running a generator to its end: it returned, it threw,
    or the model's recursion bound was reached first. *)
Inductive Res (A : Type) :=
| Ok (a : A)
| Throw (e : Err)
| OutOfFuel.
Arguments Ok {A} a.
Arguments Throw {A} e.
Arguments OutOfFuel {A}.

(** An entry of [renderInfo.instances]; [instance] is the address of the
    constructed element, once there is one. *)
Record StackEntry := mkEntry { tagName : string; instance : option nat }.

(** A constructed custom element: its constructor and the properties the
    renderer has assigned to it, the latest first. *)
Record ElementObj := mkElementObj {
  el_ctor : nat;
  el_props : list (string * Value)
}.

Record World := mkWorld {
  instances : list StackEntry;   (* renderInfo.instances; the head is the last array element *)
  sets : list (gset nat);        (* the Set<Node> objects, by address; a set holds node identities *)
  renderers : list Z;            (* renderedPartIndex of each LitHtmlChildRenderer, by address *)
  elements : list ElementObj;    (* the constructed custom elements, by address *)
  console : list (string * Err); (* console.error calls, in order *)
  templateCache : gmap nat Template
}.

Definition with_instances (f : list StackEntry → list StackEntry) (w : World) : World :=
  mkWorld (f (instances w)) (sets w) (renderers w) (elements w) (console w) (templateCache w).
Definition with_sets (f : list (gset nat) → list (gset nat)) (w : World) : World :=
  mkWorld (instances w) (f (sets w)) (renderers w) (elements w) (console w) (templateCache w).
Definition with_renderers (f : list Z → list Z) (w : World) : World :=
  mkWorld (instances w) (sets w) (f (renderers w)) (elements w) (console w) (templateCache w).
Definition with_elements (f : list ElementObj → list ElementObj) (w : World) : World :=
  mkWorld (instances w) (sets w) (renderers w) (f (elements w)) (console w) (templateCache w).
Definition with_console (f : list (string * Err) → list (string * Err)) (w : World) : World :=
  mkWorld (instances w) (sets w) (renderers w) (elements w) (f (console w)) (templateCache w).
Definition with_templateCache
    (f : gmap nat Template → gmap nat Template) (w : World) : World :=
  mkWorld (instances w) (sets w) (renderers w) (elements w) (console w) (f (templateCache w)).

(** ** Generators as computations *)

(** A generator run from a world gives an outcome, the world it leaves
    and the chunks it has yielded (also when it throws). *)
Definition M (A : Type) : Type := World → Res A * World * list Chunk.

Definition ret {A} (a : A) : M A := fun w => (Ok a, w, []).

Definition bind {A B} (m : M A) (f : A → M B) : M B :=
  fun w =>
    match m w with
    | (Ok a, w1, d1) => let '(r, w2, d2) := f a w1 in (r, w2, d1 ++ d2)
    | (Throw e, w1, d1) => (Throw e, w1, d1)
    | (OutOfFuel, w1, d1) => (OutOfFuel, w1, d1)
    end.

Notation "'let*' x ':=' m 'in' k" := (bind m (fun x => k))
  (at level 10, x pattern, m at level 100, k at level 200, only parsing).
Notation "m >> k" := (bind m (fun _ => k))
  (at level 90, right associativity, only parsing).

(** [yield c] *)
Definition emit (c : Chunk) : M unit := fun w => (Ok tt, w, [c]).
(** [throw e] *)
Definition throw {A} (e : Err) : M A := fun w => (Throw e, w, []).
Definition outOfFuel {A} : M A := fun w => (OutOfFuel, w, []).
Definition reads {A} (f : World → A) : M A := fun w => (Ok (f w), w, []).
Definition modify (f : World → World) : M unit := fun w => (Ok tt, f w, []).

(** [for (const x of l) { ... }] over a body that updates [s]. *)
Fixpoint forEach {A S} (l : list A) (body : A → S → M S) (s : S) : M S :=
  match l with
  | [] => ret s
  | x :: l' => let* s1 := body x s in forEach l' body s1
  end.

(** [post m Q]: whenever [m] returns, [Q] holds of its result and of the
    chunks it has yielded. *)
Definition post {A} (m : M A) (Q : A → list Chunk → Prop) : Prop :=
  ∀ w a w' d, m w = (Ok a, w', d) → Q a d.

(** ** The renderer's context and its collaborators *)

Record SlotInfo := mkSlotInfo { slotName : option string }.

(** [RenderInfo] without its [instances] array, which lives in the world. *)
Record RenderInfo := mkRenderInfo { slot : option SlotInfo; flattened : bool }.

(** A [ChildRenderer]: the [LitHtmlChildRenderer] that [handleNode]
    constructs (with its address and constructor arguments), or one a
    caller of [render] supplies. *)
Inductive ChildRenderer :=
| LitHtmlChildRenderer (addr : nat) (childNodes : list Node) (html : string)
    (result : TemplateResult) (partIndex : nat) (claimedNodes : nat)
| SuppliedChildRenderer (id : nat).

(** The two generators of this module, as the collaborators call them. *)
Record Callbacks := mkCallbacks {
  cb_renderValue : Value → option ChildRenderer → RenderInfo → M unit;
  cb_renderTemplateResult :
    TemplateResult → option ChildRenderer → nat → RenderInfo → M unit
}.

(** What the renderer imports: lit-html, parse5, the custom element
    registry and the modules of this package that are not among the
    sources.  They are parameters of the development. *)
Record Env := mkEnv {
  (* lit-html's [marker] *)
  marker : string;
  (* [result.getHTML()] *)
  getHTML : TemplateResult → string;
  (* [parseFragment(html, ...)]: the fragment's [childNodes], or the
     exception the parser throws *)
  parseFragment : string → Err + option (list Node);
  (* [s.replace(globalMarkerRegex, f)]: the pieces of [s] around the
     matches, one more than there are matches *)
  markerPieces : string → list string;
  (* [lastAttributeNameRegex.exec(s)]: its group 2, [None] for [null] *)
  lastAttributeName : string → option string;
  (* [customElements.get(tagName)] *)
  customElements_get : string → option nat;
  (* [new ctor()]: the exception it throws, if any *)
  construct : nat → option Err;
  (* [reflectedAttributeName(tagName, propertyName)] *)
  reflectedAttributeName : string → string → option string;
  (* [String(value)] for the values that are no primitives *)
  stringify : Value → string;
  (* [instance.renderLight()] on the element at an address *)
  renderLight : nat → World → Res Value * World;
  (* the call of a repeat directive's pre-renderer *)
  repeatRender : Callbacks → nat → option ChildRenderer → RenderInfo → M unit;
  (* [childRenderer.renderChildren(slotName)] *)
  renderChildren : Callbacks → ChildRenderer → option string → M unit;
  (* [new LitElementRenderer().renderElement(instance, childRenderer, renderInfo)] *)
  renderElement : Callbacks → nat → ChildRenderer → RenderInfo → M unit;
  (* [renderedPartIndex] of a new LitHtmlChildRenderer built at a part index *)
  initialRenderedPartIndex : nat → Z
}.

(** [String(value)], also what a template literal makes of a value. *)
Definition String_ (E : Env) (v : Value) : string :=
  match v with
  | VPrim s => s
  | VUndefined => "undefined"
  | VNull => "null"
  | _ => stringify E v
  end.

(** ** getTemplate *)

Definition getTemplate (E : Env) (result : TemplateResult) : M Template :=
  fun w =>
    match templateCache w !! stringsId result with
    | Some template => (Ok template, w, [])
    | None =>
        let html := getHTML E result in
        match parseFragment E html with
        | inl e => (Throw e, w, [])
        | inr ast =>
            let template := mkTemplate html ast in
            (Ok template, with_templateCache (insert (stringsId result) template) w, [])
        end
    end.

(** ** renderTemplateResult: the walker's local variables *)

(** [partIndex], [distributedIndex] and [lastOffset] of one call of
    [renderTemplateResult].  [consumed] is a ghost variable: the indices at
    which [result.values] has been read, in order; nothing reads it. *)
Record Local := mkLocal {
  partIndex : nat;
  distributedIndex : Z;
  lastOffset : option nat;
  consumed : list nat
}.

Definition initialLocal : Local := mkLocal 0 (-1) (Some 0) [].

(** [flushTo(offset)]: the span to yield and the new [lastOffset]. *)
Definition flushTo (html : string) (offset : option nat) (loc : Local)
  : Err + string * Local :=
  match lastOffset loc with
  | None => inl (Error "lastOffset is undefined")
  | Some previousLastOffset =>
      inr (Js.substring html (Some previousLastOffset) offset,
           mkLocal (partIndex loc) (distributedIndex loc) offset (consumed loc))
  end.

(** [yield flushTo(offset)] *)
Definition yieldFlushTo (html : string) (offset : option nat) (loc : Local) : M Local :=
  match flushTo html offset loc with
  | inl e => throw e
  | inr (s, loc') => emit (CLit s) >> ret loc'
  end.

(** [skipTo(offset)] *)
Definition skipTo (offset : nat) (loc : Local) : Local :=
  mkLocal (partIndex loc) (distributedIndex loc) (Some offset) (consumed loc).

(** [result.values[partIndex++]]; an index past the end reads [undefined]. *)
Definition nextValue (result : TemplateResult) (loc : Local) : Value * Local :=
  (nth (partIndex loc) (values result) VUndefined,
   mkLocal (S (partIndex loc)) (distributedIndex loc) (lastOffset loc)
           (consumed loc ++ [partIndex loc])).

Definition setDistributedIndex (d : Z) (loc : Local) : Local :=
  mkLocal (partIndex loc) d (lastOffset loc) (consumed loc).

(** ** handleNode: bound attributes *)

(** The callback of [attr.value.replace(globalMarkerRegex, ...)]. *)
Definition attrValueString (E : Env) (value : Value) : string :=
  match value with
  | VClassMap classes => classes
  | _ => String_ E value
  end.

(** The replacement of the markers that follow the first piece of an
    attribute value: each consumes one value. *)
Fixpoint replaceMarkers (E : Env) (result : TemplateResult)
    (pieces : list string) (loc : Local) : string * Local :=
  match pieces with
  | [] => (EmptyString, loc)
  | piece :: pieces' =>
      let '(value, loc1) := nextValue result loc in
      let '(s, loc2) := replaceMarkers E result pieces' loc1 in
      (attrValueString E value +:+ piece +:+ s, loc2)
  end.

(** [attr.value.replace(globalMarkerRegex, ...)] *)
Definition replaceAll (E : Env) (result : TemplateResult)
    (value : string) (loc : Local) : string * Local :=
  match markerPieces E value with
  | [] => (EmptyString, loc)
  | piece :: pieces =>
      let '(s, loc1) := replaceMarkers E result pieces loc in
      (piece +:+ s, loc1)
  end.

(** [(instance as any)[propertyName] = value] *)
Definition setProperty (inst : nat) (propertyName : string) (value : Value) : M unit :=
  modify (with_elements (fun els =>
    match els !! inst with
    | Some el => <[inst := mkElementObj (el_ctor el) ((propertyName, value) :: el_props el)]> els
    | None => els
    end)).

Definition isBound (attr : Attr) : bool := Js.endsWith (attr_name attr) "$lit$".

(** The body of the attribute loop for an attribute whose name ends with
    the reserved suffix. *)
Definition handleBoundAttr (E : Env) (result : TemplateResult) (html : string)
    (tagName : string) (instance : option nat) (attr : Attr) (loc : Local) : M Local :=
  let attrNameStartOffset := startOffset (attr_loc attr) in
  let attrEndOffset := endOffset (attr_loc attr) in
  emit (CLit (Js.substring html (lastOffset loc) (Some attrNameStartOffset))) >>
  let* loc1 :=
    (if Js.startsWith (attr_name attr) "." then
       match lastAttributeName E (nth (partIndex loc) (strings result) "undefined") with
       | None => throw (TypeError "Cannot read property '2' of null")
       | Some group2 =>
           let propertyName := Js.slice1 group2 in
           let '(value, loc1) := nextValue result loc in
           match instance with
           | Some inst => setProperty inst propertyName value
           | None => ret tt
           end >>
           match reflectedAttributeName E tagName propertyName with
           | Some reflectedName =>
               emit (CAttr (reflectedName +:+ "=" +:+ dq +:+ String_ E value +:+ dq))
           | None => ret tt
           end >>
           ret loc1
       end
     else
       let attributeName :=
         Js.substring (attr_name attr) (Some 0) (Some (String.length (attr_name attr) - 5)) in
       let '(s, loc1) := replaceAll E result (attr_value attr) loc in
       emit (CAttr (attributeName +:+ "=" +:+ dq +:+ s +:+ dq)) >>
       ret loc1) in
  ret (skipTo attrEndOffset loc1).

(** [for (const attr of node.attrs) { ... }], with [boundAttrsCount]. *)
Fixpoint attrLoop (E : Env) (result : TemplateResult) (html : string)
    (tagName : string) (instance : option nat) (attrs : list Attr)
    (boundAttrsCount : nat) (loc : Local) : M (nat * Local) :=
  match attrs with
  | [] => ret (boundAttrsCount, loc)
  | attr :: attrs' =>
      if isBound attr then
        let* loc1 := handleBoundAttr E result html tagName instance attr loc in
        attrLoop E result html tagName instance attrs' (boundAttrsCount + 1) loc1
      else attrLoop E result html tagName instance attrs' boundAttrsCount loc
  end.

(** The attribute part of [handleNode]: the loop from a count of zero, then
    the count attribute when at least one attribute was bound. *)
Definition handleAttrs (E : Env) (result : TemplateResult) (html : string)
    (tagName : string) (instance : option nat) (attrs : list Attr) (loc : Local) : M Local :=
  let* (boundAttrsCount, loc1) := attrLoop E result html tagName instance attrs 0 loc in
  (if 0 <? boundAttrsCount then emit (CAttrCount boundAttrsCount) else ret tt) >>
  ret loc1.

(** ** handleNode *)

Definition errorInCtor : string := "Exception in custom element constructor".

(** [claimedNodes.has(node)] *)
Definition isClaimed (claimedNodes : nat) (node : Node) (w : World) : bool :=
  bool_decide (node_id node ∈ default ∅ (sets w !! claimedNodes)).

(** The [try] block of [handleNode]: [new ctor()], then the assignment of
    the instance to the top entry of the instance stack; an exception of
    either is logged.  The result is the [instance] variable afterwards. *)
Definition tryConstruct (E : Env) (ctor : nat) : M (option nat) :=
  fun w =>
    match construct E ctor with
    | Some e =>
        (Ok None, with_console (fun c => c ++ [(errorInCtor, e)]) w, [])
    | None =>
        let inst := length (elements w) in
        let w1 := with_elements (fun els => els ++ [mkElementObj ctor []]) w in
        match instances w1 with
        | [] =>
            (Ok (Some inst),
             with_console (fun c => c ++
               [(errorInCtor, TypeError "Cannot set property 'instance' of undefined")]) w1,
             [])
        | top :: rest =>
            (Ok (Some inst),
             with_instances (fun _ => mkEntry (tagName top) (Some inst) :: rest) w1, [])
        end
    end.

(** [new LitHtmlChildRenderer(childNodes, html, result, partIndex, claimedNodes)] *)
Definition newChildRenderer (E : Env) (childNodes : list Node) (html : string)
    (result : TemplateResult) (partIndex : nat) (claimedNodes : nat) : M ChildRenderer :=
  fun w =>
    (Ok (LitHtmlChildRenderer (length (renderers w)) childNodes html result
           partIndex claimedNodes),
     with_renderers (fun rs => rs ++ [initialRenderedPartIndex E partIndex]) w, []).

(** [childRenderer.renderedPartIndex] *)
Definition renderedPartIndex (cr : ChildRenderer) (w : World) : Z :=
  match cr with
  | LitHtmlChildRenderer addr _ _ _ _ _ => default (-1)%Z (renderers w !! addr)
  | SuppliedChildRenderer _ => (-1)%Z
  end.

Definition digestOf (value : Value) : option string :=
  match value with
  | VTemplate t => Some (digest t)
  | _ => None
  end.

(** The first part of the element case: a slot of a flattened render, a
    registered custom element, or neither.  The result is [instance],
    [writeTag] and the walker's locals. *)
Definition handleElementKind (E : Env) (cb : Callbacks) (html : string)
    (childRenderer : option ChildRenderer) (renderInfo : RenderInfo)
    (node : Node) (tag : string) (startTag loc_ : Location) (loc : Local)
  : M (option nat * bool * Local) :=
  if String.eqb tag "slot" && flattened renderInfo then
    let* loc1 := yieldFlushTo html (Some (startOffset startTag)) loc in
    let slotName := getAttr node "name" in
    match childRenderer with
    | Some cr => renderChildren E cb cr slotName
    | None => ret tt
    end >>
    ret (None, false, skipTo (endOffset loc_) loc1)
  else if Js.includesChar Js.hyphen tag then
    match customElements_get E tag with
    | Some ctor =>
        let* instance := tryConstruct E ctor in
        ret (instance, true, loc)
    | None => ret (None, false, loc)
    end
  else ret (None, false, loc).

Definition handleNode (E : Env) (cb : Callbacks) (result : TemplateResult)
    (html : string) (childRenderer : option ChildRenderer) (claimedNodes : nat)
    (renderInfo : RenderInfo) (node : Node) (loc : Local) : M Local :=
  match node with
  | CommentNode _ data l =>
      if String.eqb data (marker E) then
        let* loc1 := yieldFlushTo html (Some (startOffset l)) loc in
        let loc2 := skipTo (endOffset l) loc1 in
        let '(value, loc3) := nextValue result loc2 in
        if (Z.of_nat (partIndex loc3) <=? distributedIndex loc3)%Z then
          emit (CPlaceholder (digestOf value)) >> ret loc3
        else
          cb_renderValue cb value childRenderer renderInfo >> ret loc3
      else ret loc
  | TextNode _ _ _ => ret loc
  | Element _ tag attrs l startTag children =>
      let* claimed := reads (isClaimed claimedNodes node) in
      if claimed : bool then
        let* loc1 := yieldFlushTo html (Some (startOffset l)) loc in
        ret (skipTo (endOffset l) loc1)
      else
        let* (iw, loc1) :=
          handleElementKind E cb html childRenderer renderInfo node tag startTag l loc in
        let '(instance, writeTag) := iw in
        let* loc2 := handleAttrs E result html tag instance attrs loc1 in
        let* loc3 :=
          (if writeTag : bool then yieldFlushTo html (Some (endOffset startTag)) loc2
           else ret loc2) in
        match instance with
        | Some inst =>
            let* cr := newChildRenderer E children html result (partIndex loc3) claimedNodes in
            renderElement E cb inst cr renderInfo >>
            let* rpi := reads (renderedPartIndex cr) in
            ret (setDistributedIndex rpi loc3)
        | None => ret loc3
        end
  end.

(** ** renderTemplateResult *)

(** [traverse(node, {pre, post})] of parse5-traverse with the two visitors
    of [renderTemplateResult], on the instance stack: [pre] pushes an entry
    for an element before its children are visited and [post] pops one
    after. *)
Fixpoint traverse (node : Node) (stack : list StackEntry) : list StackEntry :=
  match node with
  | Element _ tag _ _ _ children =>
      let pushed := mkEntry tag None :: stack in
      let visited :=
        (fix visit (l : list Node) (s : list StackEntry) : list StackEntry :=
           match l with
           | [] => s
           | c :: l' => visit l' (traverse c s)
           end) children pushed in
      tail visited
  | _ => stack
  end.

(** [renderInfo.instances.push({tagName})] and [renderInfo.instances.pop()] *)
Definition push (tag : string) : M unit :=
  modify (with_instances (cons (mkEntry tag None))).
Definition pop : M unit := modify (with_instances tail).

Definition tagOf (node : Node) : string :=
  match node with Element _ tag _ _ _ _ => tag | _ => EmptyString end.

Definition sameName (a b : option string) : bool := bool_decide (a = b).

(** The body of the loop over [ast.childNodes]. *)
Definition handleTopLevel (E : Env) (cb : Callbacks) (result : TemplateResult)
    (html : string) (childRenderer : option ChildRenderer) (claimedNodes : nat)
    (renderInfo : RenderInfo) (node : Node) (loc : Local) : M Local :=
  let walk := forEach (depthFirst node)
                (handleNode E cb result html childRenderer claimedNodes renderInfo) in
  (if isElement node then push (tagOf node) else ret tt) >>
  let* loc1 :=
    match slot renderInfo with
    | Some slot =>
        if isElement node then
          let nodeSlotName := getAttr node "slot" in
          if sameName nodeSlotName (slotName slot) then
            let* loc1 := walk (skipTo (startOffset (node_loc node)) loc) in
            yieldFlushTo html (Some (endOffset (node_loc node))) loc1
          else ret (skipTo (endOffset (node_loc node)) loc)
        else if sameName (slotName slot) None && isTextNode node then walk loc
        else ret loc
    | None =>
        modify (with_instances (traverse node)) >>
        walk loc
    end in
  (if isElement node then pop else ret tt) >>
  ret loc1.

Definition finalPartIndexError (partIndex n : nat) : Err :=
  Error ("unexpected final partIndex: " +:+ pretty partIndex +:+ " !== " +:+ pretty n).

(** [renderTemplateResult], returning the walker's locals as they are when
    the generator returns. *)
Definition renderTemplateResult_locals (E : Env) (cb : Callbacks)
    (result : TemplateResult) (childRenderer : option ChildRenderer)
    (claimedNodes : nat) (renderInfo : RenderInfo) : M Local :=
  let* template := getTemplate E result in
  match ast_childNodes template with
  | None => ret initialLocal
  | Some childNodes =>
      let* loc :=
        forEach childNodes
          (handleTopLevel E cb result (html template) childRenderer claimedNodes renderInfo)
          initialLocal in
      let* loc1 := yieldFlushTo (html template) None loc in
      if partIndex loc1 =? length (values result) then ret loc1
      else throw (finalPartIndexError (partIndex loc1) (length (values result)))
  end.

Definition renderTemplateResult_body (E : Env) (cb : Callbacks)
    (result : TemplateResult) (childRenderer : option ChildRenderer)
    (claimedNodes : nat) (renderInfo : RenderInfo) : M unit :=
  renderTemplateResult_locals E cb result childRenderer claimedNodes renderInfo >> ret tt.

(** ** renderValue *)

(** [new Set()] *)
Definition newSet : M nat :=
  fun w => (Ok (length (sets w)), with_sets (fun s => s ++ [∅]) w, []).

(** The render-light branch: the top entry of the instance stack is read
    without a check. *)
Definition renderLightBranch (E : Env) (cb : Callbacks)
    (childRenderer : option ChildRenderer) (renderInfo : RenderInfo) : M unit :=
  let* stack := reads instances in
  match stack with
  | [] => throw (TypeError "Cannot read property 'instance' of undefined")
  | top :: _ =>
      match instance top with
      | Some inst =>
          let* templateResult :=
            (fun w => let '(r, w1) := renderLight E inst w in (r, w1, [])) in
          cb_renderValue cb templateResult childRenderer renderInfo
      | None => ret tt
      end
  end.

Definition renderValue_body (E : Env) (cb : Callbacks) (value : Value)
    (childRenderer : option ChildRenderer) (renderInfo : RenderInfo) : M unit :=
  match value with
  | VTemplate t =>
      emit (COpen (Some (digest t))) >>
      let* claimedNodes := newSet in
      renderTemplateResult_body E cb t childRenderer claimedNodes renderInfo
  | _ =>
      emit (COpen None) >>
      match value with
      | VUndefined | VNull => ret tt
      | VRepeat r => repeatRender E cb r childRenderer renderInfo
      | VRenderLight => renderLightBranch E cb childRenderer renderInfo
      | VNothing => ret tt
      | VArray items =>
          forEach items (fun item _ => cb_renderValue cb item childRenderer renderInfo) tt
      | _ => emit (CText (String_ E value))
      end
  end >>
  emit CClose.

(** The two generators with a bound [n] on the depth of their calls of
    [renderValue]; at depth [0] the bound is reached. *)
Fixpoint generators (E : Env) (n : nat) : Callbacks :=
  match n with
  | 0 => mkCallbacks (fun _ _ _ => outOfFuel) (fun _ _ _ _ => outOfFuel)
  | S n' =>
      let cb := generators E n' in
      mkCallbacks (renderValue_body E cb) (renderTemplateResult_body E cb)
  end.

Definition renderValue (E : Env) (n : nat) := cb_renderValue (generators E n).
Definition renderTemplateResult (E : Env) (n : nat) :=
  cb_renderTemplateResult (generators E n).

(** [render]: the instance stack of its RenderInfo is a new array, and the
    array in use before is in use again when it is done. *)
Definition render (E : Env) (n : nat) (value : Value)
    (childRenderer : option ChildRenderer) (flattened : bool) : M unit :=
  fun w =>
    let '(r, w1, d) :=
      renderValue E n value childRenderer (mkRenderInfo None flattened)
        (with_instances (fun _ => []) w) in
    (r, with_instances (fun _ => instances w) w1, d).

(** ** A concrete environment

    A registry with two components, a parser given by a table of the
    templates in use, and collaborators that do the least: the repeat
    directive dispatches its items, the element renderer and the child
    renderer yield nothing. *)

Module Demo.

Definition token : string := "{{lit-7}}".

(** The pieces of [s] around the occurrences of [m]. *)
Fixpoint pieces (m : string) (skip : nat) (s : string) (cur : string) : list string :=
  match s with
  | EmptyString => [cur]
  | String c s' =>
      match skip with
      | S k => pieces m k s' cur
      | 0 =>
          if String.prefix m s then cur :: pieces m (String.length m - 1) s' EmptyString
          else pieces m 0 s' (cur +:+ String c EmptyString)
      end
  end.

(** The templates in use: their strings, markup and parsed child nodes. *)
Definition Table := list (list string * (string * option (list Node))).

Definition lookupStrings (tbl : Table) (ss : list string) : option (string * option (list Node)) :=
  snd <$> List.find (fun e => bool_decide (fst e = ss)) tbl.

Definition lookupHtml (tbl : Table) (h : string) : option (list Node) :=
  match List.find (fun e => String.eqb (fst (snd e)) h) tbl with
  | Some e => snd (snd e)
  | None => Some []
  end.

Definition lightOf (inst : nat) (w : World) : Res Value * World :=
  match elements w !! inst with
  | Some el => (Ok (VPrim ("light of " +:+ pretty (el_ctor el))), w)
  | None => (Throw (TypeError "renderLight is not a function"), w)
  end.

Definition env (tbl : Table) : Env := {|
  marker := token;
  getHTML := fun result => default EmptyString (fst <$> lookupStrings tbl (strings result));
  parseFragment := fun h => inr (lookupHtml tbl h);
  markerPieces := fun s => pieces token 0 s EmptyString;
  lastAttributeName := fun s => Some (".prop");
  customElements_get := fun tag =>
    if String.eqb tag "x-outer" then Some 1
    else if String.eqb tag "x-inner" then Some 2
    else if String.eqb tag "x-broken" then Some 3
    else None;
  construct := fun ctor => if ctor =? 3 then Some (Error "constructor failed") else None;
  reflectedAttributeName := fun _ _ => None;
  stringify := fun _ => "[object Object]";
  renderLight := lightOf;
  repeatRender := fun cb r cr ri =>
    forEach (replicate r (VPrim "item")) (fun item _ => cb_renderValue cb item cr ri) tt;
  renderChildren := fun _ _ _ => ret tt;
  renderElement := fun _ _ _ _ => ret tt;
  initialRenderedPartIndex := fun _ => (-1)%Z
|}.

Definition emptyWorld : World := mkWorld [] [] [] [] [] ∅.

Definition info : RenderInfo := mkRenderInfo None false.

(** [<div a$lit$="{{lit-7}}" id="x"></div>] with the value ["v"] *)
Definition divHtml : string :=
  "<div a$lit$=" +:+ dq +:+ "{{lit-7}}" +:+ dq +:+ " id=" +:+ dq +:+ "x" +:+ dq +:+ "></div>".
Definition divAttrs : list Attr :=
  [mkAttr "a$lit$" "{{lit-7}}" (mkLoc 5 23); mkAttr "id" "x" (mkLoc 24 30)].
Definition divNode : Node := Element 0 "div" divAttrs (mkLoc 0 37) (mkLoc 0 31) [].
Definition divStrings : list string := ["<div a=" +:+ dq; dq +:+ " id=" +:+ dq +:+ "x" +:+ dq +:+"></div>"].
Definition divResult : TemplateResult := mkTemplateResult 1 divStrings [VPrim "v"] "d1".
Definition divTable : Table := [(divStrings, (divHtml, Some [divNode]))].

(** [a<slot></slot>b] *)
Definition slotHtml : string := "a<slot></slot>b".
Definition slotNode : Node := Element 0 "slot" [] (mkLoc 1 14) (mkLoc 1 7) [].
Definition flat : RenderInfo := mkRenderInfo None true.

(** A stand-in for a parser that returns a fragment without a child-node
    list.  parse5 returns one for every markup (three nodes for this one),
    so the entry is no parse of the markup: it only makes the guard on
    [ast.childNodes] in [renderTemplateResult] run. *)
Definition bareStrings : list string := ["x"; "y"].
Definition bareResult : TemplateResult := mkTemplateResult 2 bareStrings [VPrim "a"] "d0".
Definition bareTable : Table := [(bareStrings, ("x<!--{{lit-7}}-->y", None))].

(** [<textarea>${"a"}</textarea>]: the parser reads the marker comment
    inside a textarea as text. *)
Definition areaStrings : list string := ["<textarea>"; "</textarea>"].
Definition areaHtml : string := "<textarea><!--{{lit-7}}--></textarea>".
Definition areaNode : Node :=
  Element 0 "textarea" [] (mkLoc 0 37) (mkLoc 0 10)
    [TextNode 1 "<!--{{lit-7}}-->" (mkLoc 10 26)].
Definition areaResult : TemplateResult := mkTemplateResult 3 areaStrings [VPrim "a"] "d2".
Definition areaTable : Table := [(areaStrings, (areaHtml, Some [areaNode]))].

(** [<x-outer><x-inner></x-inner>${renderLight()}</x-outer>] *)
Definition nestedStrings : list string := ["<x-outer><x-inner></x-inner>"; "</x-outer>"].
Definition nestedHtml : string :=
  "<x-outer><x-inner></x-inner><!--{{lit-7}}--></x-outer>".
Definition nestedNode : Node :=
  Element 0 "x-outer" [] (mkLoc 0 54) (mkLoc 0 9)
    [Element 1 "x-inner" [] (mkLoc 9 28) (mkLoc 9 18) [];
     CommentNode 2 token (mkLoc 28 44)].
Definition nestedResult : TemplateResult :=
  mkTemplateResult 4 nestedStrings [VRenderLight] "d3".
Definition nestedTable : Table := [(nestedStrings, (nestedHtml, Some [nestedNode]))].

(** [<div><p>${"v"}</p></div>] *)
Definition paraStrings : list string := ["<div><p>"; "</p></div>"].
Definition paraHtml : string := "<div><p><!--{{lit-7}}--></p></div>".
Definition paraNode : Node :=
  Element 0 "div" [] (mkLoc 0 34) (mkLoc 0 5)
    [Element 1 "p" [] (mkLoc 5 28) (mkLoc 5 8) [CommentNode 2 token (mkLoc 8 24)]].
Definition paraResult : TemplateResult := mkTemplateResult 5 paraStrings [VPrim "v"] "d4".

(** A dispatcher that yields, instead of the value, the tag names on the
    instance stack at the time it is called, the top first. *)
Definition stackProbe : Callbacks :=
  mkCallbacks
    (fun _ _ _ w => (Ok tt, w, [CRaw (String.concat "/" (tagName <$> instances w))]))
    (fun _ _ _ _ => ret tt).

(** [a${...}b] with its one value already distributed to a slot. *)
Definition markHtml : string := "a<!--{{lit-7}}-->b".
Definition markNode : Node := CommentNode 0 token (mkLoc 1 17).
Definition inner : TemplateResult := mkTemplateResult 6 ["x"] [] "d5".
Definition markResult : TemplateResult :=
  mkTemplateResult 7 ["a"; "b"] [VTemplate inner] "d6".
Definition distributed : Local := mkLocal 0 1 (Some 0) [].

(** [<div class="${"a"}">${"hi"}</div>] *)
Definition helloStrings : list string := ["<div class=" +:+ dq; dq +:+ ">"; "</div>"].
Definition helloHtml : string :=
  "<div class$lit$=" +:+ dq +:+ "{{lit-7}}" +:+ dq +:+ "><!--{{lit-7}}--></div>".
Definition helloNode : Node :=
  Element 0 "div" [mkAttr "class$lit$" "{{lit-7}}" (mkLoc 5 27)] (mkLoc 0 50) (mkLoc 0 28)
    [CommentNode 1 token (mkLoc 28 44)].
Definition helloResult : TemplateResult :=
  mkTemplateResult 9 helloStrings [VPrim "a"; VPrim "hi"] "d8".
Definition helloTable : Table := [(helloStrings, (helloHtml, Some [helloNode]))].
Definition helloWorld : World :=
  with_templateCache (insert 9 (mkTemplate helloHtml (Some [helloNode])))
    emptyWorld.
Definition helloChunks : list Chunk :=
  [CLit "<div "; CAttr ("class=" +:+ dq +:+ "a" +:+ dq); CAttrCount 1; CLit ">";
   COpen None; CText "hi"; CClose; CLit "</div>"].


(** An environment whose parser throws. *)
Definition faultyEnv : Env :=
  let E := env [] in
  mkEnv (marker E) (getHTML E) (fun _ => inl (Error "parse error")) (markerPieces E)
    (lastAttributeName E) (customElements_get E) (construct E)
    (reflectedAttributeName E) (stringify E) (renderLight E) (repeatRender E)
    (renderChildren E) (renderElement E) (initialRenderedPartIndex E).

(** [<div><p>hi</p></div>], a template without values. *)
Definition litHtml : string := "<div><p>hi</p></div>".
Definition litNode : Node :=
  Element 0 "div" [] (mkLoc 0 20) (mkLoc 0 5)
    [Element 1 "p" [] (mkLoc 5 14) (mkLoc 5 8) [TextNode 2 "hi" (mkLoc 8 10)]].
Definition litResult : TemplateResult := mkTemplateResult 10 [litHtml] [] "d9".
Definition litTable : Table := [([litHtml], (litHtml, Some [litNode]))].
Definition litWorld : World :=
  with_templateCache (insert 10 (mkTemplate litHtml (Some [litNode]))) emptyWorld.

(** [<p slot="y">a</p><p slot="x">b</p>]: two light children. *)
Definition lightHtml : string :=
  "<p slot=" +:+ dq +:+ "y" +:+ dq +:+ ">a</p><p slot=" +:+ dq +:+ "x" +:+ dq +:+ ">b</p>".
Definition lightY : Node :=
  Element 0 "p" [mkAttr "slot" "y" (mkLoc 3 11)] (mkLoc 0 17) (mkLoc 0 12)
    [TextNode 1 "a" (mkLoc 12 13)].
Definition lightX : Node :=
  Element 2 "p" [mkAttr "slot" "x" (mkLoc 20 28)] (mkLoc 17 34) (mkLoc 17 29)
    [TextNode 3 "b" (mkLoc 29 30)].
Definition lightResult : TemplateResult := mkTemplateResult 11 [lightHtml] [] "d10".
Definition slotX : RenderInfo := mkRenderInfo (Some (mkSlotInfo (Some "x"))) false.

(** [<x-outer></x-outer>] under a stack with one entry. *)
Definition outerHtml : string := "<x-outer></x-outer>".
Definition outerNode : Node := Element 0 "x-outer" [] (mkLoc 0 19) (mkLoc 0 9) [].
Definition outerResult : TemplateResult := mkTemplateResult 12 [outerHtml] [] "d11".
Definition hostWorld : World := with_instances (fun _ => [mkEntry "x-outer" None]) emptyWorld.

(** [<x-outer .prop=${"v"}>], its property attribute. *)
Definition propAttr : Attr := mkAttr ".prop$lit$" "{{lit-7}}" (mkLoc 9 31).
Definition propHtml : string :=
  "<x-outer .prop$lit$=" +:+ dq +:+ "{{lit-7}}" +:+ dq +:+ "></x-outer>".
Definition propResult : TemplateResult :=
  mkTemplateResult 13 ["<x-outer .prop=" +:+ dq; dq +:+ "></x-outer>"] [VPrim "v"] "d12".
Definition builtWorld : World :=
  with_elements (fun _ => [mkElementObj 1 []]) emptyWorld.


(** [<x-broken a=${v}></x-broken>] with the value [v]; the constructor of
    [x-broken] throws. *)
Definition brokenAttrHtml : string :=
  "<x-broken a$lit$=" +:+ dq +:+ "{{lit-7}}" +:+ dq +:+ "></x-broken>".
Definition brokenAttrs : list Attr := [mkAttr "a$lit$" "{{lit-7}}" (mkLoc 10 28)].
Definition brokenAttrNode : Node :=
  Element 0 "x-broken" brokenAttrs (mkLoc 0 40) (mkLoc 0 29) [].
Definition brokenAttrResult : TemplateResult :=
  mkTemplateResult 14 ["<x-broken a=" +:+ dq; dq +:+ "></x-broken>"] [VPrim "v"] "d13".
Definition brokenWorld : World :=
  with_console (fun _ => [(errorInCtor, Error "constructor failed")]) emptyWorld.
Definition brokenChunks : list Chunk :=
  [CLit "<x-broken "; CAttr ("a=" +:+ dq +:+ "v" +:+ dq); CAttrCount 1; CLit ">"].

End Demo.

(** ** Notions the properties are stated with *)

(** The text a consumer receives: the chunks' strings, joined. *)
Definition texts (d : list Chunk) : string := String.concat EmptyString (chunk_text <$> d).

(** The chunk is a hidden count attribute. *)
Definition isCount (c : Chunk) : bool :=
  match c with CAttrCount _ => true | _ => false end.

(** The number of bound attributes of a start tag. *)
Definition boundCount (attrs : list Attr) : nat := length (List.filter isBound attrs).

(** The read cursor after the attribute loop: the end of the last bound
    attribute, or where it was when no attribute is bound. *)
Definition cursorAfter (attrs : list Attr) (o : option nat) : option nat :=
  fold_left (fun o a => if isBound a then Some (endOffset (attr_loc a)) else o) attrs o.

(** The hidden count attribute follows all the attributes of its tag: the
    reading of C7 in which the count attribute of a tag with [N >= 1] bound
    attributes is the one trailing chunk of the tag's attribute handling
    and is yielded with the read cursor past every attribute of the tag. *)
Definition count_attribute_after_all_attributes : Prop :=
  ∀ (E : Env) (result : TemplateResult) (html tag : string) (inst : option nat)
    (attrs : list Attr) (loc loc' : Local) (w w' : World) (d : list Chunk),
    handleAttrs E result html tag inst attrs loc w = (Ok loc', w', d) →
    (1 ≤ boundCount attrs →
       (∃ da, Forall (fun c => isCount c = false) da ∧
              d = da ++ [CAttrCount (boundCount attrs)]) ∧
       (∃ o, lastOffset loc' = Some o ∧
             Forall (fun a => endOffset (attr_loc a) ≤ o) attrs)) ∧
    (boundCount attrs = 0 → Forall (fun c => isCount c = false) d).

(** The slot case of [handleNode] flushes up to the end of the slot's
    start tag: the reading of C5, for a slot that is not claimed, in a
    flattened render with a child renderer. *)
Definition slot_flushes_to_start_tag_end : Prop :=
  ∀ (E : Env) (cb : Callbacks) (result : TemplateResult) (html : string)
    (cr : ChildRenderer) (claimedNodes : nat) (ri : RenderInfo)
    (id : nat) (attrs : list Attr) (l startTag : Location) (children : list Node)
    (loc : Local) (lo : nat) (w : World),
    flattened ri = true →
    lastOffset loc = Some lo →
    isClaimed claimedNodes (Element id "slot" attrs l startTag children) w = false →
    ∃ r w' d,
      handleNode E cb result html (Some cr) claimedNodes ri
        (Element id "slot" attrs l startTag children) loc w
      = (r, w', CLit (Js.substring html (Some lo) (Some (endOffset startTag))) :: d).

(** What the walker keeps true of its locals: the values read so far are
    those at the indices below the part index, each once and in order, and
    the read cursor is defined. *)
Definition walkerInv (loc : Local) : Prop :=
  consumed loc = seq 0 (partIndex loc) ∧ is_Some (lastOffset loc).

(** The contract of the parser: the fragment that [parseFragment] returns
    has a child-node list, as every fragment of parse5 has. *)
Definition parserGivesChildNodes (E : Env) : Prop :=
  ∀ markup, parseFragment E markup ≠ inr None.

(** The templates in the cache have a child-node list (the cache is filled
    from what the parser returns). *)
Definition cacheHasChildNodes (w : World) : Prop :=
  ∀ i template, templateCache w !! i = Some template → ast_childNodes template ≠ None.

(** The nesting depth after the chunks [d], from depth [k]: an opening
    marker goes one level down, a closing marker one level up, and there is
    no depth when a closing marker has no opening marker to match.  A
    placeholder opens and closes at once. *)
Fixpoint depthAfter (d : list Chunk) (k : nat) : option nat :=
  match d with
  | [] => Some k
  | COpen _ :: d' => depthAfter d' (S k)
  | CClose :: d' =>
      match k with
      | 0 => None
      | S k' => depthAfter d' k'
      end
  | _ :: d' => depthAfter d' k
  end.

(** The markers of [d] are stack-balanced. *)
Definition balanced (d : list Chunk) : Prop := depthAfter d 0 = Some 0.

(** The numbers of opening and of closing markers in [d]. *)
Fixpoint opens (d : list Chunk) : nat :=
  match d with
  | [] => 0
  | (COpen _ | CPlaceholder _) :: d' => S (opens d')
  | _ :: d' => opens d'
  end.

Fixpoint closes (d : list Chunk) : nat :=
  match d with
  | [] => 0
  | (CClose | CPlaceholder _) :: d' => S (closes d')
  | _ :: d' => closes d'
  end.

(** A chunk that is neither an opening nor a closing marker. *)
Definition neutral (c : Chunk) : bool :=
  match c with COpen _ | CClose => false | _ => true end.

(** Whenever [m] returns, the markers it has yielded are balanced. *)
Definition balancedM {A} (m : M A) : Prop := post m (fun _ d => balanced d).

Definition callbacksBalanced (cb : Callbacks) : Prop :=
  (∀ value cr ri, balancedM (cb_renderValue cb value cr ri)) ∧
  (∀ result cr claimedNodes ri,
     balancedM (cb_renderTemplateResult cb result cr claimedNodes ri)).

(** The assumption on the collaborators that yield chunks: what they yield
    is balanced when what the generators they call yield is. *)
Definition collaboratorsBalanced (E : Env) : Prop :=
  ∀ cb, callbacksBalanced cb →
    (∀ r cr ri, balancedM (repeatRender E cb r cr ri)) ∧
    (∀ cr name, balancedM (renderChildren E cb cr name)) ∧
    (∀ inst cr ri, balancedM (renderElement E cb inst cr ri)).

(** Every dispatch is bracketed: the reading of C2 in which the chunks of
    [renderValue], for every value, begin with the opening marker and end
    with the closing marker. *)
Definition every_dispatch_is_bracketed : Prop :=
  ∀ (E : Env) (n : nat) (value : Value) (cr : option ChildRenderer)
    (ri : RenderInfo) (w w' : World) (r : Res unit) (d : list Chunk),
    renderValue E (S n) value cr ri w = (r, w', d) →
    r ≠ OutOfFuel →
    ∃ mid, d = COpen (digestOf value) :: mid ++ [CClose].

(** The dispatches of the items of a list, one after the other from the
    world [w]: each returns, [parts] are the chunks of each, and [w'] is
    the world after the last. *)
Fixpoint dispatchedInOrder (dispatch : Value → M unit) (items : list Value)
    (w : World) (parts : list (list Chunk)) (w' : World) : Prop :=
  match items, parts with
  | [], [] => w' = w
  | item :: items', part :: parts' =>
      ∃ w1, dispatch item w = (Ok tt, w1, part) ∧
            dispatchedInOrder dispatch items' w1 parts' w'
  | _, _ => False
  end.

(** An array gets no bracket pair of its own: the reading of C6 in which
    the chunks of an array are those of its elements' dispatches, in
    order, and nothing else. *)
Definition array_without_shared_bracket : Prop :=
  ∀ (E : Env) (n : nat) (items : list Value) (cr : option ChildRenderer)
    (ri : RenderInfo) (w w' : World) (d : list Chunk),
    renderValue E (S n) (VArray items) cr ri w = (Ok tt, w', d) →
    ∃ parts,
      dispatchedInOrder (fun item => renderValue E n item cr ri) items w parts w' ∧
      d = concat parts.

(** Values without templates and directives: primitives, the empty values
    and arrays of such values. *)
Fixpoint plain (v : Value) : bool :=
  match v with
  | VUndefined | VNull | VNothing | VClassMap _ | VPrim _ => true
  | VArray items =>
      (fix all (l : list Value) : bool :=
         match l with
         | [] => true
         | item :: l' => plain item && all l'
         end) items
  | _ => false
  end.

(** The nesting depth of the arrays of a value. *)
Fixpoint arrayDepth (v : Value) : nat :=
  match v with
  | VArray items =>
      S ((fix deepest (l : list Value) : nat :=
            match l with
            | [] => 0
            | item :: l' => Nat.max (arrayDepth item) (deepest l')
            end) items)
  | _ => 0
  end.

(** ** getScopedStyles *)

(** What a constructor's [styles] can be: a CSSResult, an array of styles
    (nested to any depth), or anything else ([undefined] included). *)
Inductive Styles :=
| SCSSResult (cssText : string)   (* style instanceof CSSResult *)
| SArray (items : list Styles)
| SOther.

(** [[styles].flat(Infinity)]: the values that are no arrays, in order. *)
Fixpoint flatInfinity (styles : Styles) : list Styles :=
  match styles with
  | SArray items =>
      (fix go (l : list Styles) : list Styles :=
         match l with
         | [] => []
         | item :: l' => flatInfinity item ++ go l'
         end) items
  | _ => [styles]
  end.

(** [getScopedStyles], over the entries [(tagName, definition.ctor.styles)]
    of [customElements.__definitions] in the map's order, with
    [StyleTransformer.css] as a parameter. *)
Definition getScopedStyles (css : string → string → string)
    (definitions : list (string * Styles)) : list string :=
  fold_left
    (fun scopedStyles '(tagName, styles) =>
       fold_left
         (fun scopedStyles style =>
            match style with
            | SCSSResult cssText => scopedStyles ++ [css cssText tagName]
            | _ => scopedStyles
            end)
         (flatInfinity styles) scopedStyles)
    definitions [].

(** The CSSResults among a constructor's styles, in order. *)
Fixpoint cssTexts (styles : Styles) : list string :=
  match styles with
  | SCSSResult cssText => [cssText]
  | SArray items =>
      (fix go (l : list Styles) : list string :=
         match l with
         | [] => []
         | item :: l' => cssTexts item ++ go l'
         end) items
  | SOther => []
  end.

(** ** More notions for the properties *)

(** The chunks of a plain value. *)
Fixpoint plainChunks (E : Env) (v : Value) : list Chunk :=
  COpen None ::
  match v with
  | VArray items =>
      (fix go (l : list Value) : list Chunk :=
         match l with
         | [] => []
         | item :: l' => plainChunks E item ++ go l'
         end) items
  | VUndefined | VNull | VNothing => []
  | _ => [CText (String_ E v)]
  end ++ [CClose].

(** A node at which [handleNode] has nothing to do in a render with the
    given [flattened]: text, a comment that is no marker, or an element
    that is no slot of a flattened render, no registered custom element
    and has no bound attribute. *)
Definition literalHead (E : Env) (flat : bool) (node : Node) : bool :=
  match node with
  | CommentNode _ data _ => negb (String.eqb data (marker E))
  | TextNode _ _ _ => true
  | Element _ tag attrs _ _ _ =>
      negb (String.eqb tag "slot" && flat) &&
      negb (Js.includesChar Js.hyphen tag &&
            bool_decide (is_Some (customElements_get E tag))) &&
      (boundCount attrs =? 0)
  end.

(** A literal node that is not in the claimed-node set. *)
Definition inert (E : Env) (flat : bool) (claimedNodes : nat) (w : World)
    (node : Node) : bool :=
  literalHead E flat node && negb (isClaimed claimedNodes node w).

(** The number of values a bound attribute consumes: one for a property,
    one per marker in its value otherwise. *)
Definition valuesOf (E : Env) (attr : Attr) : nat :=
  if Js.startsWith (attr_name attr) "." then 1
  else length (markerPieces E (attr_value attr)) - 1.

Definition valuesOfAttrs (E : Env) (attrs : list Attr) : nat :=
  foldr (fun attr n => valuesOf E attr + n) 0 (List.filter isBound attrs).

(** A top-level node that a walk for the slot [sl] does not select. *)
Definition unselected (sl : SlotInfo) (node : Node) : bool :=
  if isElement node then negb (sameName (getAttr node "slot") (slotName sl))
  else negb (sameName (slotName sl) None && isTextNode node).

(** The read cursor after a run of unselected top-level nodes: past the
    last element among them. *)
Definition cursorPast (nodes : list Node) (o : option nat) : option nat :=
  fold_left
    (fun o node => if isElement node then Some (endOffset (node_loc node)) else o)
    nodes o.

(** Whenever [m] returns, the world it leaves is related to the one it
    was run from. *)
Definition keeps (R : World → World → Prop) {A} (m : M A) : Prop :=
  ∀ w a w' d, m w = (Ok a, w', d) → R w w'.

Definition sameStack (w w' : World) : Prop := instances w' = instances w.
Definition sameBelowTop (w w' : World) : Prop :=
  tail (instances w') = tail (instances w).

Definition callbacksKeepStack (cb : Callbacks) : Prop :=
  (∀ value cr ri, keeps sameStack (cb_renderValue cb value cr ri)) ∧
  (∀ result cr claimedNodes ri,
     keeps sameStack (cb_renderTemplateResult cb result cr claimedNodes ri)).

(** The assumption on the collaborators for the instance stack: they
    leave it as they find it when the generators they call do. *)
Definition collaboratorsKeepStack (E : Env) : Prop :=
  (∀ inst w, instances (renderLight E inst w).2 = instances w) ∧
  ∀ cb, callbacksKeepStack cb →
    (∀ r cr ri, keeps sameStack (repeatRender E cb r cr ri)) ∧
    (∀ cr name, keeps sameStack (renderChildren E cb cr name)) ∧
    (∀ inst cr ri, keeps sameStack (renderElement E cb inst cr ri)).

(** The locals [loc'] are [loc] after [k] more values have been read. *)
Definition advanced (loc : Local) (k : nat) (loc' : Local) : Prop :=
  partIndex loc' = partIndex loc + k ∧
  consumed loc' = consumed loc ++ seq (partIndex loc) k ∧
  distributedIndex loc' = distributedIndex loc.

(** [m] leaves the world as it was, however it ends. *)
Definition pureW {A} (m : M A) : Prop := ∀ w r w' d, m w = (r, w', d) → w' = w.

(** The text that replaces the markers after the first piece of an
    attribute value, given the values they stand for. *)
Fixpoint interleave (E : Env) (vs : list Value) (pieces : list string) : string :=
  match vs, pieces with
  | v :: vs', piece :: pieces' =>
      attrValueString E v +:+ piece +:+ interleave E vs' pieces'
  | _, _ => EmptyString
  end.

(** The values at [k] indices from [p] on; past the end they are
    [undefined]. *)
Definition valuesFrom (result : TemplateResult) (p k : nat) : list Value :=
  (fun i => nth i (values result) VUndefined) <$> seq p k.

(** * Properties *)

(** ** Reasoning about generators *)

Lemma bind_Ok {A B} (m : M A) (f : A → M B) w b w' d :
  bind m f w = (Ok b, w', d) →
  ∃ a w1 d1 d2, m w = (Ok a, w1, d1) ∧ f a w1 = (Ok b, w', d2) ∧ d = d1 ++ d2.
Proof.
  unfold bind. destruct (m w) as [[r w1] d1]. destruct r as [a| |]; try discriminate.
  destruct (f a w1) as [[r2 w2] d2] eqn:Hf. intros [= -> -> <-].
  exists a, w1, d1, d2. auto.
Qed.

Lemma bind_eq {A B} (m : M A) (f : A → M B) w a w1 d1 :
  m w = (Ok a, w1, d1) →
  bind m f w = (let '(r, w2, d2) := f a w1 in (r, w2, d1 ++ d2)).
Proof. unfold bind. intros ->. reflexivity. Qed.

Lemma post_ret {A} (a : A) (Q : A → list Chunk → Prop) : Q a [] → post (ret a) Q.
Proof. intros H w a' w' d [= <- _ <-]. exact H. Qed.

Lemma post_bind {A B} (m : M A) (f : A → M B) (P : A → list Chunk → Prop)
    (Q : B → list Chunk → Prop) :
  post m P →
  (∀ a d1, P a d1 → post (f a) (fun b d2 => Q b (d1 ++ d2))) →
  post (bind m f) Q.
Proof.
  intros Hm Hf w b w' d Hb.
  apply bind_Ok in Hb as (a & w1 & d1 & d2 & H1 & H2 & ->).
  eapply Hf; eauto.
Qed.

Lemma post_weaken {A} (m : M A) (P Q : A → list Chunk → Prop) :
  post m P → (∀ a d, P a d → Q a d) → post m Q.
Proof. intros H HPQ w a w' d Hm. eauto. Qed.

Lemma post_emit c (Q : unit → list Chunk → Prop) : Q tt [c] → post (emit c) Q.
Proof. intros H w a w' d [= <- _ <-]. exact H. Qed.

Lemma post_throw {A} e (Q : A → list Chunk → Prop) : post (throw e) Q.
Proof. intros w a w' d [=]. Qed.

Lemma post_outOfFuel {A} (Q : A → list Chunk → Prop) : post outOfFuel Q.
Proof. intros w a w' d [=]. Qed.

Lemma post_reads {A B} (g : World → B) (f : B → M A) (Q : A → list Chunk → Prop) :
  (∀ b, post (f b) Q) → post (bind (reads g) f) Q.
Proof. intros H w a w' d. unfold bind, reads. destruct (f (g w) w) as [[r w2] d2] eqn:Hf.
  intros [= -> -> <-]. eapply H. exact Hf. Qed.

Lemma post_modify (g : World → World) (Q : unit → list Chunk → Prop) :
  Q tt [] → post (modify g) Q.
Proof. intros H w a w' d [= <- _ <-]. exact H. Qed.

(** A loop keeps what each turn of its body keeps. *)
Lemma post_forEach {A S} (l : list A) (body : A → S → M S)
    (I : S → list Chunk → Prop) :
  (∀ x s d1, I s d1 → post (body x s) (fun s' d2 => I s' (d1 ++ d2))) →
  ∀ s d0, I s d0 → post (forEach l body s) (fun s' d => I s' (d0 ++ d)).
Proof.
  intros Hbody. induction l as [|x l IH]; intros s d0 Hs; simpl.
  - apply post_ret. by rewrite List.app_nil_r.
  - eapply post_bind.
    + apply (Hbody x s d0 Hs).
    + intros s1 d1 H1. eapply post_weaken; [apply (IH s1 _ H1)|].
      intros a d. simpl. by rewrite app_assoc.
Qed.

(** ** The early return of renderTemplateResult *)

(** C10: when the parsed template has no child-node list,
    [renderTemplateResult] returns right after fetching the template: it
    yields no chunk (so no final flush) and does not throw, whatever the
    values of the TemplateResult are; its part index is still [0]. *)
Theorem renderTemplateResult_absent_childNodes
    (E : Env) (n : nat) (result : TemplateResult) (cr : option ChildRenderer)
    (claimedNodes : nat) (ri : RenderInfo) (w w1 : World) (template : Template) :
  getTemplate E result w = (Ok template, w1, []) →
  ast_childNodes template = None →
  renderTemplateResult E (S n) result cr claimedNodes ri w = (Ok tt, w1, []) ∧
  renderTemplateResult_locals E (generators E n) result cr claimedNodes ri w
    = (Ok initialLocal, w1, []).
Proof.
  intros Hget Hnone.
  assert (Hloc : renderTemplateResult_locals E (generators E n) result cr claimedNodes ri w
                 = (Ok initialLocal, w1, [])).
  { unfold renderTemplateResult_locals. rewrite (bind_eq _ _ _ _ _ _ Hget).
    rewrite Hnone. reflexivity. }
  split; [|exact Hloc].
  unfold renderTemplateResult. simpl. unfold renderTemplateResult_body.
  rewrite (bind_eq _ _ _ _ _ _ Hloc). reflexivity.
Qed.

(** ** The render-light branch of renderValue *)

(** C9: dispatching a render-light directive while the instance stack is
    empty throws a TypeError after the opening marker has been yielded: the
    value is not skipped and no closing marker is yielded. *)
Theorem renderValue_renderLight_empty_stack
    (E : Env) (n : nat) (cr : option ChildRenderer) (ri : RenderInfo) (w : World) :
  instances w = [] →
  renderValue E (S n) VRenderLight cr ri w
    = (Throw (TypeError "Cannot read property 'instance' of undefined"), w, [COpen None]).
Proof.
  intros Hstack. unfold renderValue. simpl. unfold renderValue_body.
  unfold bind, emit, renderLightBranch, bind, reads. rewrite Hstack. reflexivity.
Qed.

(** ** Values superseded by slot distribution *)

Lemma append_assoc3 (s1 s2 s3 : string) : (s1 +:+ s2) +:+ s3 = s1 +:+ (s2 +:+ s3).
Proof.
  induction s1 as [|c s1 IH]; [reflexivity|].
  change (String c ((s1 +:+ s2) +:+ s3) = String c (s1 +:+ (s2 +:+ s3))).
  by rewrite IH.
Qed.

(** C3: at a marker comment whose part index, once consumed, is not above
    the distributed index, [handleNode] flushes the markup before the
    comment and yields one placeholder chunk, whose text is the opening
    marker (with the digest when the value is a TemplateResult) directly
    followed by the closing marker, with nothing between them;
    [renderValue] is not called, whatever it would do. *)
Theorem handleNode_superseded_marker
    (E : Env) (cb : Callbacks) (result : TemplateResult) (html : string)
    (cr : option ChildRenderer) (claimedNodes : nat) (ri : RenderInfo)
    (id : nat) (l : Location) (loc : Local) (lo : nat) (w : World) :
  let value := nth (partIndex loc) (values result) VUndefined in
  lastOffset loc = Some lo →
  (Z.of_nat (S (partIndex loc)) <= distributedIndex loc)%Z →
  handleNode E cb result html cr claimedNodes ri (CommentNode id (marker E) l) loc w
    = (Ok (mkLocal (S (partIndex loc)) (distributedIndex loc) (Some (endOffset l))
             (consumed loc ++ [partIndex loc])),
       w,
       [CLit (Js.substring html (Some lo) (Some (startOffset l)));
        CPlaceholder (digestOf value)]) ∧
  chunk_text (CPlaceholder (digestOf value))
    = match value with
      | VTemplate t => "<!--lit-part " +:+ digest t +:+ "--><!--/lit-part-->"
      | _ => "<!--lit-part--><!--/lit-part-->"
      end ∧
  texts [CLit (Js.substring html (Some lo) (Some (startOffset l)));
         CPlaceholder (digestOf value)]
    = Js.substring html (Some lo) (Some (startOffset l)) +:+
      chunk_text (CPlaceholder (digestOf value)).
Proof.
  intros value Hlo Hle. repeat split.
  - unfold handleNode. rewrite String.eqb_refl.
    unfold yieldFlushTo, flushTo. rewrite Hlo.
    apply Z.leb_le in Hle. unfold bind, emit, ret, skipTo, nextValue.
    cbn [partIndex distributedIndex lastOffset consumed].
    rewrite Hle. reflexivity.
  - destruct value; try reflexivity.
    unfold chunk_text, digestOf, open_text, close_text.
    rewrite !append_assoc3. reflexivity.
Qed.

(** ** Component expansion when the constructor throws *)

Lemma hyphen_not_slot (tag : string) :
  Js.includesChar Js.hyphen tag = true → String.eqb tag "slot" = false.
Proof.
  intros H. destruct (String.eqb_spec tag "slot") as [->|]; [|reflexivity].
  vm_compute in H. discriminate.
Qed.


(** ** The hidden count attribute *)

Lemma handleBoundAttr_post E result html tag inst attr loc :
  post (handleBoundAttr E result html tag inst attr loc)
    (fun loc' d => Forall (fun c => isCount c = false) d ∧
                   lastOffset loc' = Some (endOffset (attr_loc attr))).
Proof.
  unfold handleBoundAttr.
  eapply post_bind with (P := fun _ d => Forall (fun c => isCount c = false) d).
  { apply post_emit. by repeat constructor. }
  intros _ d1 Hd1.
  eapply post_bind with (P := fun _ d => Forall (fun c => isCount c = false) d).
  - destruct (Js.startsWith (attr_name attr) ".").
    + destruct (lastAttributeName E _); [|apply post_throw].
      unfold nextValue.
      eapply post_bind with (P := fun _ d => d = []).
      { destruct inst; [apply post_modify | apply post_ret]; reflexivity. }
      intros _ ? ->.
      eapply post_bind with (P := fun _ d => Forall (fun c => isCount c = false) d).
      { destruct (reflectedAttributeName E tag _);
          [apply post_emit | apply post_ret]; by repeat constructor. }
      intros _ d2 Hd2. apply post_ret. simpl. by rewrite List.app_nil_r.
    + destruct (replaceAll E result (attr_value attr) loc) as [s loc1].
      eapply post_bind with (P := fun _ d => Forall (fun c => isCount c = false) d).
      { apply post_emit. by repeat constructor. }
      intros _ d2 Hd2. apply post_ret. by rewrite List.app_nil_r.
  - intros loc1 d2 Hd2. apply post_ret. split; [|reflexivity].
    rewrite List.app_nil_r. by apply Forall_app.
Qed.

Lemma attrLoop_post E result html tag inst attrs k loc :
  post (attrLoop E result html tag inst attrs k loc)
    (fun r d => Forall (fun c => isCount c = false) d ∧
                r.1 = k + boundCount attrs ∧
                lastOffset r.2 = cursorAfter attrs (lastOffset loc)).
Proof.
  revert k loc. induction attrs as [|attr attrs IH]; intros k loc; simpl.
  - apply post_ret. simpl. unfold boundCount. simpl. repeat split; [constructor | lia].
  - unfold boundCount. simpl. destruct (isBound attr) eqn:Hb.
    + eapply post_bind; [apply handleBoundAttr_post|].
      intros loc1 d1 [Hd1 Hlo]. eapply post_weaken; [apply IH|].
      intros [k' loc'] d (Hd & Hk & Hcur). simpl in *. repeat split.
      * by apply Forall_app.
      * rewrite Hk. unfold boundCount. lia.
      * by rewrite Hcur, Hlo.
    + apply IH.
Qed.

(** C7, as the code has it: when the attribute handling of a start tag
    with [N] bound attributes returns, no chunk of the attributes
    themselves is a count attribute, and they are followed by exactly one
    count attribute, of value [N], when [N] is at least one, and by none
    when [N] is zero.  The count attribute is yielded with the read cursor
    at the end of the last bound attribute. *)
Theorem handleAttrs_count_attribute
    (E : Env) (result : TemplateResult) (html tag : string) (inst : option nat)
    (attrs : list Attr) (loc loc' : Local) (w w' : World) (d : list Chunk) :
  handleAttrs E result html tag inst attrs loc w = (Ok loc', w', d) →
  ∃ da,
    Forall (fun c => isCount c = false) da ∧
    d = da ++ (if 0 <? boundCount attrs then [CAttrCount (boundCount attrs)] else []) ∧
    lastOffset loc' = cursorAfter attrs (lastOffset loc) ∧
    chunk_text (CAttrCount (boundCount attrs))
      = " __lit-attr=" +:+ dq +:+ pretty (boundCount attrs) +:+ dq.
Proof.
  unfold handleAttrs. intros H.
  apply bind_Ok in H as ([k loc1] & w1 & da & d2 & Hloop & Hrest & ->).
  apply attrLoop_post in Hloop as (Hda & Hk & Hcur). simpl in Hk, Hcur. subst k.
  apply bind_Ok in Hrest as ([] & w2 & d3 & d4 & Hcount & Hret & ->).
  injection Hret as <- <- <-.
  exists da. repeat split; try assumption.
  f_equal. rewrite List.app_nil_r.
  destruct (0 <? boundCount attrs); by injection Hcount as <- <-.
Qed.

(** With a literal attribute after the bound one, the count attribute is
    yielded before the rest of the start tag. *)
Example count_attribute_before_literal_attribute :
  let '(r, _, d) :=
    renderValue (Demo.env Demo.divTable) 1 (VTemplate Demo.divResult) None
      Demo.info Demo.emptyWorld in
  r = Ok tt ∧
  texts d = "<!--lit-part d1--><div a=" +:+ dq +:+ "v" +:+ dq +:+ " __lit-attr="
            +:+ dq +:+ "1" +:+ dq +:+ " id=" +:+ dq +:+ "x" +:+ dq
            +:+ "></div><!--/lit-part-->".
Proof. vm_compute. split; reflexivity. Qed.

(** C7 as stated fails: in [<div a$lit$=... id="x">] the count attribute
    is yielded with the cursor at offset 23, before the attribute [id]
    that ends at offset 30. *)
Lemma count_attribute_not_after_all_attributes :
  ¬ count_attribute_after_all_attributes.
Proof.
  intros H.
  destruct (H (Demo.env Demo.divTable) Demo.divResult Demo.divHtml "div" None
              Demo.divAttrs initialLocal
              (mkLocal 1 (-1) (Some 23) [0]) Demo.emptyWorld Demo.emptyWorld
              [CLit "<div "; CAttr ("a=" +:+ dq +:+ "v" +:+ dq); CAttrCount 1])
    as [H1 _].
  { vm_compute. reflexivity. }
  destruct H1 as [_ (o & Ho & Hall)]; [vm_compute; lia|].
  injection Ho as <-.
  apply Forall_cons in Hall as [_ Hall]. apply Forall_cons in Hall as [Hid _].
  vm_compute in Hid. lia.
Qed.

(** ** Slots of a flattened render *)

Lemma attrLoop_unbound E result html tag inst attrs k loc w :
  boundCount attrs = 0 →
  attrLoop E result html tag inst attrs k loc w = (Ok (k, loc), w, []).
Proof.
  unfold boundCount. induction attrs as [|a attrs IH]; simpl; [reflexivity|].
  destruct (isBound a); simpl; [discriminate | exact IH].
Qed.

Lemma handleAttrs_unbound E result html tag inst attrs loc w :
  boundCount attrs = 0 →
  handleAttrs E result html tag inst attrs loc w = (Ok loc, w, []).
Proof.
  intros H. unfold handleAttrs.
  rewrite (bind_eq _ _ _ _ _ _ (attrLoop_unbound E result html tag inst attrs 0 loc w H)).
  reflexivity.
Qed.

(** ** The element of a constructor that throws *)

Lemma pureW_ret {A} (a : A) : pureW (ret a).
Proof. by intros w r w' d [= _ <- _]. Qed.

Lemma pureW_emit c : pureW (emit c).
Proof. by intros w r w' d [= _ <- _]. Qed.

Lemma pureW_throw {A} e : pureW (@throw A e).
Proof. by intros w r w' d [= _ <- _]. Qed.

Lemma pureW_bind {A B} (m : M A) (f : A → M B) :
  pureW m → (∀ a, pureW (f a)) → pureW (bind m f).
Proof.
  intros Hm Hf w r w' d. unfold bind.
  destruct (m w) as [[r1 w1] d1] eqn:H1. apply Hm in H1 as ->.
  destruct r1 as [a| |]; [|by intros [= _ <- _] ..].
  destruct (f a w) as [[r2 w2] d2] eqn:H2. apply Hf in H2 as ->.
  by intros [= _ <- _].
Qed.

Lemma pureW_handleBoundAttr E result html tag attr loc :
  pureW (handleBoundAttr E result html tag None attr loc).
Proof.
  unfold handleBoundAttr. apply pureW_bind; [apply pureW_emit|]. intros _.
  apply pureW_bind; [|intros; apply pureW_ret].
  destruct (Js.startsWith (attr_name attr) ".").
  - destruct (lastAttributeName E _); [|apply pureW_throw].
    destruct (nextValue result loc) as [value loc1].
    apply pureW_bind; [apply pureW_ret|]. intros _.
    apply pureW_bind; [|intros; apply pureW_ret].
    destruct (reflectedAttributeName E tag _); [apply pureW_emit | apply pureW_ret].
  - destruct (replaceAll E result (attr_value attr) loc) as [s loc1].
    apply pureW_bind; [apply pureW_emit | intros; apply pureW_ret].
Qed.

Lemma pureW_handleAttrs E result html tag attrs loc :
  pureW (handleAttrs E result html tag None attrs loc).
Proof.
  unfold handleAttrs. apply pureW_bind.
  - generalize 0. revert loc. induction attrs as [|attr attrs IH]; intros loc k; simpl.
    + apply pureW_ret.
    + destruct (isBound attr); [|apply IH].
      apply pureW_bind; [apply pureW_handleBoundAttr | intros; apply IH].
  - intros [k loc1]. apply pureW_bind; [|intros; apply pureW_ret].
    destruct (0 <? k); [apply pureW_emit | apply pureW_ret].
Qed.

Lemma cursorAfter_Some (attrs : list Attr) (lo : nat) :
  ∃ o, cursorAfter attrs (Some lo) = Some o.
Proof.
  unfold cursorAfter. revert lo. induction attrs as [|attr attrs IH]; intros lo; simpl.
  - by eexists.
  - destruct (isBound attr); apply IH.
Qed.

Lemma handleAttrs_shape E result html tag inst attrs loc loc' w w' d :
  handleAttrs E result html tag inst attrs loc w = (Ok loc', w', d) →
  ∃ da,
    Forall (fun c => isCount c = false) da ∧
    d = da ++ (if 0 <? boundCount attrs then [CAttrCount (boundCount attrs)] else []) ∧
    lastOffset loc' = cursorAfter attrs (lastOffset loc).
Proof.
  unfold handleAttrs. intros H.
  apply bind_Ok in H as ([k loc1] & w1 & da & d2 & Hloop & Hrest & ->).
  apply attrLoop_post in Hloop as (Hda & Hk & Hcur). simpl in Hk, Hcur. subst k.
  apply bind_Ok in Hrest as ([] & w2 & d3 & d4 & Hcount & Hret & ->).
  injection Hret as <- <- <-.
  exists da. repeat split; try assumption.
  f_equal. rewrite List.app_nil_r.
  destruct (0 <? boundCount attrs); by injection Hcount as <- <-.
Qed.

Lemma constructor_throws_equation
    (E : Env) (cb : Callbacks) (result : TemplateResult) (html : string)
    (cr : option ChildRenderer) (claimedNodes : nat) (ri : RenderInfo)
    (id : nat) (tag : string) (attrs : list Attr) (l startTag : Location)
    (children : list Node) (loc : Local) (w : World) (ctor : nat) (e : Err) :
  isClaimed claimedNodes (Element id tag attrs l startTag children) w = false →
  Js.includesChar Js.hyphen tag = true →
  customElements_get E tag = Some ctor →
  construct E ctor = Some e →
  handleNode E cb result html cr claimedNodes ri
      (Element id tag attrs l startTag children) loc w
  = match handleAttrs E result html tag None attrs loc
            (with_console (fun c => c ++ [(errorInCtor, e)]) w) with
    | (Ok loc2, w2, d2) =>
        match flushTo html (Some (endOffset startTag)) loc2 with
        | inr (s, loc3) => (Ok loc3, w2, d2 ++ [CLit s])
        | inl e' => (Throw e', w2, d2)
        end
    | (Throw e', w2, d2) => (Throw e', w2, d2)
    | (OutOfFuel, w2, d2) => (OutOfFuel, w2, d2)
    end.
Proof.
  intros Hclaimed Hhyphen Hget Hthrows.
  unfold handleNode, handleElementKind.
  rewrite (hyphen_not_slot _ Hhyphen), Hhyphen, Hget. simpl andb. cbv iota.
  unfold bind at 1. unfold reads at 1. rewrite Hclaimed.
  unfold bind at 1. unfold bind at 1. unfold tryConstruct. rewrite Hthrows.
  unfold ret at 1. cbn beta iota.
  unfold bind at 1.
  destruct (handleAttrs E result html tag None attrs loc _) as [[r2 w2] d2].
  destruct r2 as [loc2| |]; try reflexivity.
  unfold bind at 1. unfold yieldFlushTo.
  destruct (flushTo html (Some (endOffset startTag)) loc2) as [e'|[s loc3]].
  - unfold throw. simpl. by rewrite List.app_nil_r.
  - unfold bind, emit, ret. simpl. by rewrite ?List.app_nil_r.
Qed.

(** C8: when the constructor of a registered component throws, the
    exception is caught and logged (the console gets one more entry, with
    the exception), no instance exists (no element is stored, the
    instance stack is untouched, no child renderer is built, no element
    renderer runs) and the element is rendered as a plain tag: its bound
    attributes are resolved with no instance in scope, followed by the
    count attribute when there are any, and its start tag is flushed.
    [handleNode] returns, so the render goes on, whenever the attribute
    resolution does, and always for an element without bound
    attributes. *)
Theorem handleNode_constructor_throws
    (E : Env) (cb : Callbacks) (result : TemplateResult) (html : string)
    (cr : option ChildRenderer) (claimedNodes : nat) (ri : RenderInfo)
    (id : nat) (tag : string) (attrs : list Attr) (l startTag : Location)
    (children : list Node) (loc : Local) (w : World) (ctor : nat) (e : Err) :
  let node := Element id tag attrs l startTag children in
  let logged := with_console (fun c => c ++ [(errorInCtor, e)]) w in
  isClaimed claimedNodes node w = false →
  Js.includesChar Js.hyphen tag = true →
  customElements_get E tag = Some ctor →
  construct E ctor = Some e →
  handleNode E cb result html cr claimedNodes ri node loc w
  = match handleAttrs E result html tag None attrs loc logged with
    | (Ok loc2, w2, d2) =>
        match flushTo html (Some (endOffset startTag)) loc2 with
        | inr (s, loc3) => (Ok loc3, w2, d2 ++ [CLit s])
        | inl e' => (Throw e', w2, d2)
        end
    | (Throw e', w2, d2) => (Throw e', w2, d2)
    | (OutOfFuel, w2, d2) => (OutOfFuel, w2, d2)
    end ∧
  (∀ r w' d,
     handleNode E cb result html cr claimedNodes ri node loc w = (r, w', d) →
     console w' = console w ++ [(errorInCtor, e)] ∧
     instances w' = instances w ∧ elements w' = elements w ∧
     renderers w' = renderers w ∧ sets w' = sets w ∧
     templateCache w' = templateCache w) ∧
  (∀ lo loc2 w2 d2,
     lastOffset loc = Some lo →
     handleAttrs E result html tag None attrs loc logged = (Ok loc2, w2, d2) →
     ∃ o da,
       cursorAfter attrs (Some lo) = Some o ∧
       Forall (fun c => isCount c = false) da ∧
       d2 = da ++ (if 0 <? boundCount attrs
                   then [CAttrCount (boundCount attrs)] else []) ∧
       handleNode E cb result html cr claimedNodes ri node loc w
       = (Ok (mkLocal (partIndex loc2) (distributedIndex loc2)
                (Some (endOffset startTag)) (consumed loc2)),
          logged,
          d2 ++ [CLit (Js.substring html (Some o) (Some (endOffset startTag)))])) ∧
  (boundCount attrs = 0 → ∀ lo, lastOffset loc = Some lo →
     handleNode E cb result html cr claimedNodes ri node loc w
     = (Ok (mkLocal (partIndex loc) (distributedIndex loc)
              (Some (endOffset startTag)) (consumed loc)),
        logged, [CLit (Js.substring html (Some lo) (Some (endOffset startTag)))])).
Proof.
  intros node logged Hclaimed Hhyphen Hget Hthrows.
  pose proof (constructor_throws_equation E cb result html cr claimedNodes ri id tag
                attrs l startTag children loc w ctor e Hclaimed Hhyphen Hget Hthrows)
    as Heq.
  fold node logged in Heq.
  assert (Hthird : ∀ lo loc2 w2 d2,
     lastOffset loc = Some lo →
     handleAttrs E result html tag None attrs loc logged = (Ok loc2, w2, d2) →
     ∃ o da,
       cursorAfter attrs (Some lo) = Some o ∧
       Forall (fun c => isCount c = false) da ∧
       d2 = da ++ (if 0 <? boundCount attrs
                   then [CAttrCount (boundCount attrs)] else []) ∧
       handleNode E cb result html cr claimedNodes ri node loc w
       = (Ok (mkLocal (partIndex loc2) (distributedIndex loc2)
                (Some (endOffset startTag)) (consumed loc2)),
          logged,
          d2 ++ [CLit (Js.substring html (Some o) (Some (endOffset startTag)))])).
  { intros lo loc2 w2 d2 Hlo Hattrs.
    pose proof (pureW_handleAttrs _ _ _ _ _ _ _ _ _ _ Hattrs) as ->.
    destruct (handleAttrs_shape _ _ _ _ _ _ _ _ _ _ _ Hattrs) as (da & Hda & Hd & Hcur).
    destruct (cursorAfter_Some attrs lo) as [o Ho].
    exists o, da. repeat split; try assumption.
    rewrite Heq, Hattrs. unfold flushTo. rewrite Hcur, Hlo, Ho. reflexivity. }
  assert (Hworld : ∀ r w' d,
     handleNode E cb result html cr claimedNodes ri node loc w = (r, w', d) →
     w' = logged).
  { intros r w' d H. rewrite Heq in H.
    destruct (handleAttrs E result html tag None attrs loc logged) as [[r2 w2] d2] eqn:Ha.
    pose proof (pureW_handleAttrs _ _ _ _ _ _ _ _ _ _ Ha) as ->.
    destruct r2 as [loc2| |]; [destruct (flushTo _ _ loc2) as [?|[? ?]]|..];
      by injection H as _ <- _. }
  split; [exact Heq|]. split; [|split].
  - intros r w' d H. apply Hworld in H as ->. unfold logged. by destruct w.
  - exact Hthird.
  - intros Hunbound lo Hlo.
    destruct (Hthird lo loc logged [] Hlo (handleAttrs_unbound _ _ _ _ _ _ _ _ Hunbound))
      as (o & da & Ho & _ & _ & Hrun).
    rewrite Hrun. unfold cursorAfter in Ho.
    assert (o = lo) as ->.
    { clear -Ho Hunbound. unfold boundCount in Hunbound. revert Ho.
      induction attrs as [|attr attrs IH]; simpl in *; [by intros [= ->]|].
      destruct (isBound attr); [discriminate | exact (IH Hunbound)]. }
    reflexivity.
Qed.



(** ** Value conservation *)

Lemma walkerInv_initial : walkerInv initialLocal.
Proof. split; [reflexivity | by eexists]. Qed.

Lemma walkerInv_skipTo o loc : walkerInv loc → walkerInv (skipTo o loc).
Proof. intros [Hc _]. split; [exact Hc | by eexists]. Qed.

Lemma walkerInv_nextValue result loc : walkerInv loc → walkerInv (nextValue result loc).2.
Proof.
  intros [Hc Ho]. split; [|exact Ho]. simpl. rewrite Hc. symmetry. apply seq_S.
Qed.

Lemma walkerInv_setDistributedIndex z loc :
  walkerInv loc → walkerInv (setDistributedIndex z loc).
Proof. intros [Hc Ho]. by split. Qed.

Lemma walkerInv_replaceMarkers E result pieces loc :
  walkerInv loc → walkerInv (replaceMarkers E result pieces loc).2.
Proof.
  revert loc. induction pieces as [|p pieces IH]; intros loc Hloc; simpl; [exact Hloc|].
  specialize (IH _ (walkerInv_nextValue result loc Hloc)). simpl in IH.
  destruct (replaceMarkers E result pieces _) as [s loc2]. exact IH.
Qed.

Lemma walkerInv_replaceAll E result value loc :
  walkerInv loc → walkerInv (replaceAll E result value loc).2.
Proof.
  intros Hloc. unfold replaceAll. destruct (markerPieces E value) as [|p pieces]; [exact Hloc|].
  pose proof (walkerInv_replaceMarkers E result pieces loc Hloc) as H.
  destruct (replaceMarkers E result pieces loc) as [s loc1]. exact H.
Qed.

Lemma inv_yieldFlushTo html o loc :
  walkerInv loc → post (yieldFlushTo html (Some o) loc) (fun loc' _ => walkerInv loc').
Proof.
  intros [Hc _] w a w' d. unfold yieldFlushTo, flushTo.
  destruct (lastOffset loc); [|discriminate].
  unfold bind, emit, ret. intros [= <- _ _]. split; [exact Hc | by eexists].
Qed.

(** Steps that yield or touch the world but return no locals. *)
Ltac unit_step := eapply post_bind with (P := fun _ _ => True); [intros ? ? ? ? _; exact I|intros ? ? ?].

Lemma inv_handleBoundAttr E result html tag inst attr loc :
  walkerInv loc →
  post (handleBoundAttr E result html tag inst attr loc) (fun loc' _ => walkerInv loc').
Proof.
  intros Hloc. unfold handleBoundAttr. unit_step.
  eapply post_bind with (P := fun loc1 _ => walkerInv loc1).
  - destruct (Js.startsWith (attr_name attr) ".").
    + destruct (lastAttributeName E _); [|apply post_throw].
      pose proof (walkerInv_nextValue result loc Hloc) as Hnext.
      destruct (nextValue result loc) as [value loc1].
      unit_step. unit_step. apply post_ret. exact Hnext.
    + pose proof (walkerInv_replaceAll E result (attr_value attr) loc Hloc) as Hrep.
      destruct (replaceAll E result (attr_value attr) loc) as [s loc1].
      unit_step. apply post_ret. exact Hrep.
  - intros loc1 ? Hloc1; simpl in Hloc1. apply post_ret. by apply walkerInv_skipTo.
Qed.

Lemma inv_attrLoop E result html tag inst attrs k loc :
  walkerInv loc →
  post (attrLoop E result html tag inst attrs k loc) (fun r _ => walkerInv r.2).
Proof.
  revert k loc. induction attrs as [|attr attrs IH]; intros k loc Hloc; simpl.
  - by apply post_ret.
  - destruct (isBound attr); [|by apply IH].
    eapply post_bind; [by apply inv_handleBoundAttr|].
    intros loc1 ? Hloc1; simpl in Hloc1. by apply IH.
Qed.

Lemma inv_handleAttrs E result html tag inst attrs loc :
  walkerInv loc →
  post (handleAttrs E result html tag inst attrs loc) (fun loc' _ => walkerInv loc').
Proof.
  intros Hloc. unfold handleAttrs.
  eapply post_bind; [by apply inv_attrLoop|].
  intros [k loc1] ? Hloc1; simpl in Hloc1. unit_step. by apply post_ret.
Qed.

Lemma inv_handleElementKind E cb html cr ri node tag startTag l loc :
  walkerInv loc →
  post (handleElementKind E cb html cr ri node tag startTag l loc)
    (fun r _ => walkerInv r.2).
Proof.
  intros Hloc. unfold handleElementKind.
  destruct (String.eqb tag "slot" && flattened ri).
  - eapply post_bind; [by apply inv_yieldFlushTo|].
    intros loc1 ? Hloc1; simpl in Hloc1. unit_step. apply post_ret. by apply walkerInv_skipTo.
  - destruct (Js.includesChar Js.hyphen tag); [|by apply post_ret].
    destruct (customElements_get E tag); [|by apply post_ret].
    eapply post_bind with (P := fun _ _ => True); [intros ? ? ? ? _; exact I|].
    intros inst ? ?. by apply post_ret.
Qed.

Lemma inv_handleNode E cb result html cr claimedNodes ri node loc :
  walkerInv loc →
  post (handleNode E cb result html cr claimedNodes ri node loc)
    (fun loc' _ => walkerInv loc').
Proof.
  intros Hloc. destruct node as [id data l|id value l|id tag attrs l startTag children];
    unfold handleNode.
  - destruct (String.eqb data (marker E)); [|by apply post_ret].
    eapply post_bind; [by apply inv_yieldFlushTo|].
    intros loc1 ? Hloc1; simpl in Hloc1.
    pose proof (walkerInv_nextValue result _ (walkerInv_skipTo (endOffset l) _ Hloc1))
      as Hnext.
    destruct (nextValue result (skipTo (endOffset l) loc1)) as [value loc3].
    destruct (Z.of_nat (partIndex loc3) <=? distributedIndex loc3)%Z;
      unit_step; by apply post_ret.
  - by apply post_ret.
  - apply post_reads. intros [].
    + eapply post_bind; [by apply inv_yieldFlushTo|].
      intros loc1 ? Hloc1; simpl in Hloc1. apply post_ret. by apply walkerInv_skipTo.
    + eapply post_bind; [by apply inv_handleElementKind|].
      intros [[inst writeTag] loc1] ? Hloc1; simpl in Hloc1.
      eapply post_bind; [by apply inv_handleAttrs|].
      intros loc2 ? Hloc2; simpl in Hloc2.
      eapply post_bind with (P := fun loc3 _ => walkerInv loc3).
      { destruct writeTag; [by apply inv_yieldFlushTo | by apply post_ret]. }
      intros loc3 ? Hloc3; simpl in Hloc3. destruct inst as [inst|]; [|by apply post_ret].
      eapply post_bind with (P := fun _ _ => True); [intros ? ? ? ? _; exact I|].
      intros child ? ?. unit_step. apply post_reads. intros rpi. apply post_ret.
      by apply walkerInv_setDistributedIndex.
Qed.

Lemma inv_walk E cb result html cr claimedNodes ri nodes loc :
  walkerInv loc →
  post (forEach nodes (handleNode E cb result html cr claimedNodes ri) loc)
    (fun loc' _ => walkerInv loc').
Proof.
  intros Hloc.
  apply (post_forEach nodes _ (fun loc' _ => walkerInv loc')) with (d0 := []);
    [|exact Hloc].
  intros node s ? Hs. by apply inv_handleNode.
Qed.

Lemma inv_handleTopLevel E cb result html cr claimedNodes ri node loc :
  walkerInv loc →
  post (handleTopLevel E cb result html cr claimedNodes ri node loc)
    (fun loc' _ => walkerInv loc').
Proof.
  intros Hloc. unfold handleTopLevel. unit_step.
  eapply post_bind with (P := fun loc1 _ => walkerInv loc1).
  - destruct (slot ri) as [sl|].
    + destruct (isElement node).
      * destruct (sameName _ _).
        -- eapply post_bind; [apply inv_walk; by apply walkerInv_skipTo|].
           intros loc1 ? Hloc1; simpl in Hloc1. by apply inv_yieldFlushTo.
        -- apply post_ret. by apply walkerInv_skipTo.
      * destruct (sameName (slotName sl) None && isTextNode node);
          [by apply inv_walk | by apply post_ret].
    + unit_step. by apply inv_walk.
  - intros loc1 ? Hloc1; simpl in Hloc1. unit_step. by apply post_ret.
Qed.

Lemma inv_topLevelLoop E cb result html cr claimedNodes ri nodes loc :
  walkerInv loc →
  post (forEach nodes (handleTopLevel E cb result html cr claimedNodes ri) loc)
    (fun loc' _ => walkerInv loc').
Proof.
  intros Hloc.
  apply (post_forEach nodes _ (fun loc' _ => walkerInv loc')) with (d0 := []);
    [|exact Hloc].
  intros node s ? Hs. by apply inv_handleTopLevel.
Qed.

(** For a TemplateResult whose fetched template has a child-node list: a
    render that returns has read the values at the indices
    [0 .. len(values) - 1], each once and in that order, and ends with the
    final flush; a walk that ends with another part index ends in the
    error about the final part index, after the final flush. *)
Lemma value_conservation_local
    (E : Env) (cb : Callbacks) (result : TemplateResult)
    (cr : option ChildRenderer) (claimedNodes : nat) (ri : RenderInfo)
    (w w0 : World) (template : Template) (nodes : list Node) :
  getTemplate E result w = (Ok template, w0, []) →
  ast_childNodes template = Some nodes →
  (∀ loc w' d,
     renderTemplateResult_locals E cb result cr claimedNodes ri w = (Ok loc, w', d) →
     partIndex loc = length (values result) ∧
     consumed loc = seq 0 (length (values result)) ∧
     ∃ d0 lo, d = d0 ++ [CLit (Js.substring (html template) (Some lo) None)]) ∧
  (∀ loc1 w1 d1,
     forEach nodes (handleTopLevel E cb result (html template) cr claimedNodes ri)
       initialLocal w0 = (Ok loc1, w1, d1) →
     partIndex loc1 ≠ length (values result) →
     ∃ lo,
       renderTemplateResult_body E cb result cr claimedNodes ri w
       = (Throw (finalPartIndexError (partIndex loc1) (length (values result))), w1,
          d1 ++ [CLit (Js.substring (html template) (Some lo) None)])).
Proof.
  intros Hget Hnodes. split.
  - intros loc w' d H. unfold renderTemplateResult_locals in H.
    apply bind_Ok in H as (t & w0' & dg & d2 & Hg & Hrest & ->).
    rewrite Hget in Hg. injection Hg as <- <- <-. rewrite Hnodes in Hrest.
    apply bind_Ok in Hrest as (loc1 & w1 & d1 & d3 & Hwalk & Hrest & ->).
    apply inv_topLevelLoop in Hwalk as [Hc [lo Hlo]]; [|apply walkerInv_initial].
    apply bind_Ok in Hrest as (loc2 & w2 & d4 & d5 & Hflush & Hcheck & ->).
    unfold yieldFlushTo, flushTo in Hflush. rewrite Hlo in Hflush.
    unfold bind, emit, ret in Hflush. injection Hflush as <- <- <-.
    cbn [partIndex] in Hcheck.
    destruct (partIndex loc1 =? length (values result)) eqn:Heq; [|discriminate].
    apply Nat.eqb_eq in Heq. injection Hcheck as <- <- <-. cbn.
    repeat split; [exact Heq | by rewrite Hc, Heq |].
    exists d1, lo. reflexivity.
  - intros loc1 w1 d1 Hwalk Hne.
    pose proof Hwalk as Hinv.
    apply inv_topLevelLoop in Hinv as [Hc [lo Hlo]]; [|apply walkerInv_initial].
    exists lo. unfold renderTemplateResult_body, renderTemplateResult_locals.
    unfold bind at 1. rewrite (bind_eq _ _ _ _ _ _ Hget), Hnodes.
    rewrite (bind_eq _ _ _ _ _ _ Hwalk).
    unfold yieldFlushTo, flushTo. rewrite Hlo. unfold bind, emit, ret, throw.
    cbn [partIndex]. apply Nat.eqb_neq in Hne. rewrite Hne. cbn.
    by rewrite ?List.app_nil_r.
Qed.

Lemma getTemplate_childNodes E result w template w0 d :
  parserGivesChildNodes E → cacheHasChildNodes w →
  getTemplate E result w = (Ok template, w0, d) →
  d = [] ∧ ∃ nodes, ast_childNodes template = Some nodes.
Proof.
  intros Hparser Hcache. unfold getTemplate.
  destruct (templateCache w !! stringsId result) as [t|] eqn:Hlookup.
  - intros [= <- <- <-]. split; [reflexivity|].
    specialize (Hcache _ _ Hlookup). destruct (ast_childNodes t); [by eexists | done].
  - specialize (Hparser (getHTML E result)).
    destruct (parseFragment E (getHTML E result)) as [e|[nodes|]]; try done.
    intros [= <- <- <-]. split; [reflexivity | by eexists].
Qed.


(** ** Bracket markers *)

Lemma depthAfter_app d1 d2 k :
  depthAfter (d1 ++ d2) k = depthAfter d1 k ≫= depthAfter d2.
Proof.
  revert k. induction d1 as [|c d1 IH]; intros k; [reflexivity|].
  destruct c; simpl; try apply IH. destruct k; [reflexivity | apply IH].
Qed.

Lemma depthAfter_shift d k k' j :
  depthAfter d k = Some k' → depthAfter d (k + j) = Some (k' + j).
Proof.
  revert k. induction d as [|c d IH]; intros k; simpl.
  - by intros [= ->].
  - destruct c; try apply IH.
    destruct k; [discriminate|]. simpl. apply IH.
Qed.

Lemma depthAfter_counts d k k' :
  depthAfter d k = Some k' → k + opens d = k' + closes d.
Proof.
  revert k. induction d as [|c d IH]; intros k; simpl.
  - intros [= ->]. lia.
  - destruct c; try (intros H; apply IH in H; lia).
    destruct k; [discriminate|]. intros H; apply IH in H; lia.
Qed.

Lemma balanced_nil : balanced [].
Proof. reflexivity. Qed.

Lemma balanced_app d1 d2 : balanced d1 → balanced d2 → balanced (d1 ++ d2).
Proof. unfold balanced. intros H1 H2. by rewrite depthAfter_app, H1. Qed.

Lemma balanced_neutral c : neutral c = true → balanced [c].
Proof. by destruct c. Qed.

Lemma balanced_bracket dg d : balanced d → balanced (COpen dg :: d ++ [CClose]).
Proof.
  unfold balanced. intros H. simpl. rewrite depthAfter_app.
  apply (depthAfter_shift _ _ _ 1) in H. simpl in H. by rewrite H.
Qed.

Lemma balanced_counts d : balanced d → opens d = closes d.
Proof. intros H. apply depthAfter_counts in H. lia. Qed.

Lemma balancedM_ret {A} (a : A) : balancedM (ret a).
Proof. apply post_ret. apply balanced_nil. Qed.

Lemma balancedM_bind {A B} (m : M A) (f : A → M B) :
  balancedM m → (∀ a, balancedM (f a)) → balancedM (bind m f).
Proof.
  intros Hm Hf. eapply post_bind; [exact Hm|].
  intros a d1 Hd1. eapply post_weaken; [apply Hf|].
  intros b d2 Hd2. by apply balanced_app.
Qed.

Lemma balancedM_emit c : neutral c = true → balancedM (emit c).
Proof. intros H. apply post_emit. by apply balanced_neutral. Qed.

Lemma balancedM_silent {A} (m : M A) :
  (∀ w, (m w).2 = []) → balancedM m.
Proof.
  intros H w a w' d Hm. specialize (H w). rewrite Hm in H. simpl in H. subst d.
  apply balanced_nil.
Qed.

Lemma balancedM_forEach {A S} (l : list A) (body : A → S → M S) (s : S) :
  (∀ x s, balancedM (body x s)) → balancedM (forEach l body s).
Proof.
  intros Hbody. revert s. induction l as [|x l IH]; intros s; simpl.
  - apply balancedM_ret.
  - apply balancedM_bind; [apply Hbody | apply IH].
Qed.

Lemma balancedM_yieldFlushTo html o loc : balancedM (yieldFlushTo html o loc).
Proof.
  unfold yieldFlushTo. destruct (flushTo html o loc) as [e|[s loc']].
  - apply post_throw.
  - apply balancedM_bind; [by apply balancedM_emit | intros; apply balancedM_ret].
Qed.

Lemma balancedM_handleBoundAttr E result html tag inst attr loc :
  balancedM (handleBoundAttr E result html tag inst attr loc).
Proof.
  unfold handleBoundAttr.
  apply balancedM_bind; [by apply balancedM_emit|]. intros _.
  apply balancedM_bind; [|intros; apply balancedM_ret].
  destruct (Js.startsWith (attr_name attr) ".").
  - destruct (lastAttributeName E _); [|apply post_throw].
    destruct (nextValue result loc) as [value loc1].
    apply balancedM_bind.
    { destruct inst; [by apply balancedM_silent | apply balancedM_ret]. }
    intros _. apply balancedM_bind; [|intros; apply balancedM_ret].
    destruct (reflectedAttributeName E tag _);
      [by apply balancedM_emit | apply balancedM_ret].
  - destruct (replaceAll E result (attr_value attr) loc) as [s loc1].
    apply balancedM_bind; [by apply balancedM_emit | intros; apply balancedM_ret].
Qed.

Lemma balancedM_attrLoop E result html tag inst attrs k loc :
  balancedM (attrLoop E result html tag inst attrs k loc).
Proof.
  revert k loc. induction attrs as [|attr attrs IH]; intros k loc; simpl.
  - apply balancedM_ret.
  - destruct (isBound attr); [|apply IH].
    apply balancedM_bind; [apply balancedM_handleBoundAttr | intros; apply IH].
Qed.

Lemma balancedM_handleAttrs E result html tag inst attrs loc :
  balancedM (handleAttrs E result html tag inst attrs loc).
Proof.
  unfold handleAttrs. apply balancedM_bind; [apply balancedM_attrLoop|].
  intros [k loc1]. apply balancedM_bind; [|intros; apply balancedM_ret].
  destruct (0 <? k); [by apply balancedM_emit | apply balancedM_ret].
Qed.

Section Balance.

Variable E : Env.
Variable cb : Callbacks.
Hypothesis collaborators : collaboratorsBalanced E.
Hypothesis callbacks : callbacksBalanced cb.

Lemma balancedM_handleElementKind html cr ri node tag startTag l loc :
  balancedM (handleElementKind E cb html cr ri node tag startTag l loc).
Proof.
  unfold handleElementKind. destruct (String.eqb tag "slot" && flattened ri).
  - apply balancedM_bind; [apply balancedM_yieldFlushTo|]. intros loc1.
    apply balancedM_bind; [|intros; apply balancedM_ret].
    destruct cr as [c|]; [|apply balancedM_ret].
    apply (collaborators cb callbacks).
  - destruct (Js.includesChar Js.hyphen tag); [|apply balancedM_ret].
    destruct (customElements_get E tag) as [ctor|]; [|apply balancedM_ret].
    apply balancedM_bind; [|intros; apply balancedM_ret].
    apply balancedM_silent. intros w. unfold tryConstruct.
    destruct (construct E ctor); [reflexivity|].
    by destruct (instances _).
Qed.

Lemma balancedM_handleNode result html cr claimedNodes ri node loc :
  balancedM (handleNode E cb result html cr claimedNodes ri node loc).
Proof.
  destruct node as [id data l|id value l|id tag attrs l startTag children];
    unfold handleNode.
  - destruct (String.eqb data (marker E)); [|apply balancedM_ret].
    apply balancedM_bind; [apply balancedM_yieldFlushTo|]. intros loc1.
    destruct (nextValue result (skipTo (endOffset l) loc1)) as [value loc3].
    destruct (Z.of_nat (partIndex loc3) <=? distributedIndex loc3)%Z.
    + apply balancedM_bind; [by apply balancedM_emit | intros; apply balancedM_ret].
    + apply balancedM_bind; [apply callbacks | intros; apply balancedM_ret].
  - apply balancedM_ret.
  - apply balancedM_bind; [by apply balancedM_silent|]. intros [].
    + apply balancedM_bind; [apply balancedM_yieldFlushTo | intros; apply balancedM_ret].
    + apply balancedM_bind; [apply balancedM_handleElementKind|].
      intros [[inst writeTag] loc1].
      apply balancedM_bind; [apply balancedM_handleAttrs|]. intros loc2.
      apply balancedM_bind.
      { destruct writeTag; [apply balancedM_yieldFlushTo | apply balancedM_ret]. }
      intros loc3. destruct inst as [inst|]; [|apply balancedM_ret].
      apply balancedM_bind; [by apply balancedM_silent|]. intros child.
      apply balancedM_bind; [apply (collaborators cb callbacks)|]. intros _.
      apply balancedM_bind; [by apply balancedM_silent | intros; apply balancedM_ret].
Qed.

Lemma balancedM_handleTopLevel result html cr claimedNodes ri node loc :
  balancedM (handleTopLevel E cb result html cr claimedNodes ri node loc).
Proof.
  assert (Hwalk : ∀ nodes loc',
    balancedM (forEach nodes (handleNode E cb result html cr claimedNodes ri) loc')).
  { intros. apply balancedM_forEach. intros. apply balancedM_handleNode. }
  unfold handleTopLevel.
  apply balancedM_bind.
  { destruct (isElement node); [by apply balancedM_silent | apply balancedM_ret]. }
  intros _. apply balancedM_bind.
  - destruct (slot ri) as [sl|].
    + destruct (isElement node).
      * destruct (sameName _ _); [|apply balancedM_ret].
        apply balancedM_bind; [apply Hwalk | intros; apply balancedM_yieldFlushTo].
      * destruct (sameName (slotName sl) None && isTextNode node);
          [apply Hwalk | apply balancedM_ret].
    + apply balancedM_bind; [by apply balancedM_silent | intros; apply Hwalk].
  - intros loc1. apply balancedM_bind; [|intros; apply balancedM_ret].
    destruct (isElement node); [by apply balancedM_silent | apply balancedM_ret].
Qed.

Lemma balancedM_renderTemplateResult_body result cr claimedNodes ri :
  balancedM (renderTemplateResult_body E cb result cr claimedNodes ri).
Proof.
  unfold renderTemplateResult_body, renderTemplateResult_locals.
  apply balancedM_bind; [|intros; apply balancedM_ret].
  apply balancedM_bind.
  { apply balancedM_silent. intros w. unfold getTemplate.
    destruct (templateCache w !! stringsId result); [reflexivity|].
    by destruct (parseFragment E _). }
  intros template. destruct (ast_childNodes template) as [nodes|]; [|apply balancedM_ret].
  apply balancedM_bind.
  { apply balancedM_forEach. intros. apply balancedM_handleTopLevel. }
  intros loc. apply balancedM_bind; [apply balancedM_yieldFlushTo|]. intros loc1.
  destruct (partIndex loc1 =? length (values result)); [apply balancedM_ret | apply post_throw].
Qed.

(** What [renderValue] yields between its two markers. *)
Lemma balancedM_renderLightBranch cr ri : balancedM (renderLightBranch E cb cr ri).
Proof.
  unfold renderLightBranch. apply post_reads. intros [|top stack]; [apply post_throw|].
  destruct (instance top) as [inst|]; [|apply balancedM_ret].
  apply balancedM_bind; [|intros; apply callbacks].
  apply balancedM_silent. intros w. by destruct (renderLight E inst w).
Qed.

Lemma balancedM_renderValue_body value cr ri :
  balancedM (renderValue_body E cb value cr ri).
Proof.
  assert (Hbracket : ∀ dg (inner : M unit), balancedM inner →
            balancedM (bind (bind (emit (COpen dg)) (fun _ => inner)) (fun _ => emit CClose))).
  { intros dg inner Hinner w a w' d H.
    apply bind_Ok in H as ([] & w1 & d1 & d2 & H1 & H2 & ->).
    apply bind_Ok in H1 as ([] & w2 & d3 & d4 & H3 & H4 & ->).
    injection H3 as <- <-. injection H2 as <- <-.
    apply Hinner in H4. simpl. subst d2. by apply balanced_bracket. }
  unfold renderValue_body. destruct value; apply Hbracket;
    try apply balancedM_ret; try (by apply balancedM_emit).
  - apply balancedM_bind; [by apply balancedM_silent|]. intros claimedNodes.
    apply balancedM_renderTemplateResult_body.
  - apply (collaborators cb callbacks).
  - apply balancedM_renderLightBranch.
  - apply balancedM_forEach. intros. apply callbacks.
Qed.

End Balance.

Lemma generators_balanced (E : Env) (n : nat) :
  collaboratorsBalanced E → callbacksBalanced (generators E n).
Proof.
  intros HE. induction n as [|n IH].
  - split; intros; apply post_outOfFuel.
  - split; intros; simpl.
    + by apply balancedM_renderValue_body.
    + by apply balancedM_renderTemplateResult_body.
Qed.

Lemma renderValue_body_first E cb value cr ri w r w' d :
  renderValue_body E cb value cr ri w = (r, w', d) →
  ∃ rest, d = COpen (digestOf value) :: rest.
Proof.
  assert (Hfirst : ∀ dg (inner : M unit),
            bind (bind (emit (COpen dg)) (fun _ => inner)) (fun _ => emit CClose) w
              = (r, w', d) → ∃ rest, d = COpen dg :: rest).
  { intros dg inner. unfold bind, emit.
    destruct (inner w) as [[r1 w1] d1]. destruct r1; intros [= _ _ <-]; by eexists. }
  unfold renderValue_body. destruct value; apply Hfirst.
Qed.

Lemma renderValue_body_last E cb value cr ri w w' d :
  renderValue_body E cb value cr ri w = (Ok tt, w', d) →
  ∃ mid, d = COpen (digestOf value) :: mid ++ [CClose].
Proof.
  intros H. destruct (renderValue_body_first _ _ _ _ _ _ _ _ _ H) as [rest Hrest].
  unfold renderValue_body in H.
  apply bind_Ok in H as ([] & w1 & d1 & d2 & H1 & H2 & ->).
  injection H2 as <- <-.
  destruct d1 as [|c mid].
  - exfalso. destruct value; apply bind_Ok in H1 as ([] & ? & ? & ? & He & _ & Hd);
      injection He as <- <-; discriminate.
  - injection Hrest as -> _. by exists mid.
Qed.



(** ** Arrays *)

Lemma forEach_dispatched (dispatch : Value → M unit) items w w' d :
  forEach items (fun item _ => dispatch item) tt w = (Ok tt, w', d) →
  ∃ parts, dispatchedInOrder dispatch items w parts w' ∧ d = concat parts.
Proof.
  revert w d. induction items as [|item items IH]; intros w d; simpl.
  - intros [= <- <-]. by exists [].
  - intros H. apply bind_Ok in H as ([] & w1 & d1 & d2 & H1 & H2 & ->).
    apply IH in H2 as (parts & Hparts & ->).
    exists (d1 :: parts). split; [|reflexivity]. by exists w1.
Qed.

Lemma dispatchedInOrder_bracketed E n cr ri items w parts w' :
  dispatchedInOrder (fun item => renderValue E n item cr ri) items w parts w' →
  Forall2 (fun item part => ∃ mid, part = COpen (digestOf item) :: mid ++ [CClose])
    items parts.
Proof.
  revert w parts. induction items as [|item items IH]; intros w [|part parts]; simpl;
    try contradiction.
  - constructor.
  - intros (w1 & H1 & H2). constructor; [|by eapply IH].
    destruct n as [|n]; [discriminate|].
    eapply renderValue_body_last. exact H1.
Qed.

(** C6 as stated fails: the chunks of the array [["a"]] are the markers of
    the array around the markers of its element around ["a"]. *)
Lemma array_has_shared_bracket : ¬ array_without_shared_bracket.
Proof.
  intros H.
  destruct (H (Demo.env []) 1 [VPrim "a"] None Demo.info Demo.emptyWorld Demo.emptyWorld
              [COpen None; COpen None; CText "a"; CClose; CClose] eq_refl)
    as (parts & Hparts & Hd).
  destruct parts as [|part [|part' parts]]; simpl in Hparts; try contradiction.
  - destruct Hparts as (w1 & H1 & _). vm_compute in H1. injection H1 as _ <-.
    discriminate.
  - by destruct Hparts as (w1 & _ & ?).
Qed.

(** C6, as the code has it: the chunks of an array whose dispatch returns
    are the bare opening marker, then the chunks of the dispatch of each
    element, in array order and each with its own opening and closing
    marker, then the closing marker: one bracket pair around the array and
    one around each element. *)
Theorem renderValue_array
    (E : Env) (n : nat) (items : list Value) (cr : option ChildRenderer)
    (ri : RenderInfo) (w w' : World) (d : list Chunk) :
  renderValue E (S n) (VArray items) cr ri w = (Ok tt, w', d) →
  ∃ parts,
    dispatchedInOrder (fun item => renderValue E n item cr ri) items w parts w' ∧
    d = COpen None :: concat parts ++ [CClose] ∧
    Forall2 (fun item part => ∃ mid, part = COpen (digestOf item) :: mid ++ [CClose])
      items parts.
Proof.
  intros H. unfold renderValue in H. simpl in H. unfold renderValue_body in H.
  apply bind_Ok in H as ([] & w1 & d1 & d2 & H1 & H2 & ->).
  injection H2 as <- <-.
  apply bind_Ok in H1 as ([] & w2 & d3 & d4 & H3 & H4 & ->).
  injection H3 as <- <-.
  apply forEach_dispatched in H4 as (parts & Hparts & ->).
  exists parts. repeat split; [exact Hparts|].
  by eapply dispatchedInOrder_bracketed.
Qed.

(** ** The instance stack *)

Lemma traverse_unchanged (node : Node) (stack : list StackEntry) :
  traverse node stack = stack.
Proof.
  revert node stack. fix IH 1.
  intros [id data l|id value l|id tag attrs l startTag children] stack; simpl;
    try reflexivity.
  assert (Hvisit : ∀ s,
    (fix visit (l : list Node) (s : list StackEntry) : list StackEntry :=
       match l with
       | [] => s
       | c :: l' => visit l' (traverse c s)
       end) children s = s).
  { induction children as [|c cs IHc]; intros s; [reflexivity|].
    rewrite IH. apply IHc. }
  by rewrite Hvisit.
Qed.

(** C4 does not hold of the code.  The pushes and pops of [traverse] all
    happen before the nodes are walked and leave the instance stack as it
    was, so during the walk of a top-level element the stack holds the
    entry of that element and none for the elements inside it: in
    [<div><p>${v}</p></div>] the stack at the dispatch of [v] is [div]
    alone, and in [<x-outer><x-inner></x-inner>${renderLight()}</x-outer>]
    the directive, whose nearest enclosing component is [x-outer]
    (constructor 1), renders the light DOM of [x-inner] (constructor 2),
    the last element assigned to the one entry. *)
Theorem instance_stack_not_nested :
  (∀ node stack, traverse node stack = stack) ∧
  (handleTopLevel (Demo.env []) Demo.stackProbe Demo.paraResult Demo.paraHtml None 0
     Demo.info Demo.paraNode initialLocal Demo.emptyWorld).2
    = [CLit "<div><p>"; CRaw "div"] ∧
  (let '(r, _, d) :=
     render (Demo.env Demo.nestedTable) 3 (VTemplate Demo.nestedResult) None false
       Demo.emptyWorld in
   r = Ok tt ∧
   d = [COpen (Some "d3"); CLit "<x-outer>"; CLit "<x-inner>"; CLit "</x-inner>";
        COpen None; COpen None; CText "light of 2"; CClose; CClose;
        CLit "</x-outer>"; CClose]).
Proof.
  split; [exact traverse_unchanged|]. split; [vm_compute; reflexivity|].
  vm_compute. split; reflexivity.
Qed.

(** ** Dispatches that always return *)

Lemma plain_array items : plain (VArray items) = forallb plain items.
Proof. induction items as [|item items IH]; [reflexivity|]. simpl in *. by rewrite IH. Qed.

Lemma arrayDepth_array items :
  arrayDepth (VArray items) = S (foldr (fun item => Nat.max (arrayDepth item)) 0 items).
Proof.
  induction items as [|item items IH]; [reflexivity|]. simpl in *. congruence.
Qed.

(** The dispatch of a plain value returns as soon as the bound on the call
    depth exceeds the nesting of its arrays, and leaves the world as it
    was. *)
Lemma renderValue_plain_returns (E : Env) (n : nat) :
  ∀ value cr ri w, plain value = true → arrayDepth value < n →
    ∃ d, renderValue E n value cr ri w = (Ok tt, w, d).
Proof.
  induction n as [|n IH]; intros value cr ri w Hplain Hdepth; [lia|].
  unfold renderValue. simpl. unfold renderValue_body.
  destruct value; try discriminate; try (by eexists).
  rewrite plain_array in Hplain. rewrite arrayDepth_array in Hdepth.
  assert (Hitems : ∃ d, forEach items
            (fun item _ => cb_renderValue (generators E n) item cr ri) tt w
            = (Ok tt, w, d)).
  { clear -IH Hplain Hdepth. revert Hplain Hdepth.
    induction items as [|item items IHitems]; simpl; intros Hplain Hdepth.
    - by eexists.
    - apply andb_prop in Hplain as [Hitem Hrest].
      destruct (IH item cr ri w Hitem) as [d1 H1]; [lia|].
      destruct IHitems as [d2 H2]; [exact Hrest | lia |].
      exists (d1 ++ d2). unfold renderValue in H1.
      by rewrite (bind_eq _ _ _ _ _ _ H1), H2. }
  destruct Hitems as [d Hd]. exists (COpen None :: d ++ [CClose]).
  unfold bind at 1. unfold bind at 1. unfold emit at 1. cbn beta iota.
  rewrite Hd. reflexivity.
Qed.

(** X17: from [render] the instance stack is empty, so a render-light
    directive given to [render] itself throws. *)
Corollary render_renderLight_throws (E : Env) (n : nat) cr flattened (w : World) :
  render E (S n) VRenderLight cr flattened w
  = (Throw (TypeError "Cannot read property 'instance' of undefined"), w, [COpen None]).
Proof.
  unfold render. unfold renderValue. simpl. unfold renderValue_body.
  unfold bind, emit, renderLightBranch, bind, reads. simpl. by destruct w.
Qed.

(** ** The properties at concrete inputs *)

Lemma renderTemplateResult_absent_childNodes_witness :
  renderTemplateResult (Demo.env Demo.bareTable) 1 Demo.bareResult None 0 Demo.info
    Demo.emptyWorld
  = (Ok tt,
     with_templateCache
       (insert 2 (mkTemplate "x<!--{{lit-7}}-->y" None)) Demo.emptyWorld,
     []).
Proof.
  apply (renderTemplateResult_absent_childNodes (Demo.env Demo.bareTable) 0
           Demo.bareResult None 0 Demo.info Demo.emptyWorld _
           (mkTemplate "x<!--{{lit-7}}-->y" None)); reflexivity.
Defined.

Lemma renderValue_renderLight_empty_stack_witness :
  renderValue (Demo.env []) 1 VRenderLight None Demo.info Demo.emptyWorld
  = (Throw (TypeError "Cannot read property 'instance' of undefined"),
     Demo.emptyWorld, [COpen None]).
Proof.
  apply (renderValue_renderLight_empty_stack (Demo.env []) 0 None Demo.info
           Demo.emptyWorld).
  reflexivity.
Defined.

Lemma handleNode_superseded_marker_witness :
  handleNode (Demo.env []) (generators (Demo.env []) 0) Demo.markResult Demo.markHtml
    None 0 Demo.info Demo.markNode Demo.distributed Demo.emptyWorld
  = (Ok (mkLocal 1 1 (Some 17) [0]), Demo.emptyWorld,
     [CLit "a"; CPlaceholder (Some "d5")]) ∧
  texts [CLit "a"; CPlaceholder (Some "d5")] = "a<!--lit-part d5--><!--/lit-part-->".
Proof.
  destruct (handleNode_superseded_marker (Demo.env []) (generators (Demo.env []) 0)
              Demo.markResult Demo.markHtml None 0 Demo.info 0 (mkLoc 1 17)
              Demo.distributed 0 Demo.emptyWorld eq_refl ltac:(simpl; lia))
    as (Hrun & Htext & Htexts).
  split; [exact Hrun|]. etransitivity; [exact Htexts|].
  rewrite Htext. reflexivity.
Defined.

Lemma handleNode_constructor_throws_witness :
  handleNode (Demo.env []) (generators (Demo.env []) 0) Demo.brokenAttrResult
    Demo.brokenAttrHtml None 0 Demo.info Demo.brokenAttrNode initialLocal
    Demo.emptyWorld
  = (Ok (mkLocal 1 (-1) (Some 29) [0]), Demo.brokenWorld, Demo.brokenChunks) ∧
  console Demo.brokenWorld = [(errorInCtor, Error "constructor failed")] ∧
  elements Demo.brokenWorld = [] ∧
  texts Demo.brokenChunks
    = "<x-broken a=" +:+ dq +:+ "v" +:+ dq +:+ " __lit-attr=" +:+ dq +:+ "1" +:+ dq +:+ ">".
Proof.
  destruct (handleNode_constructor_throws (Demo.env []) (generators (Demo.env []) 0)
              Demo.brokenAttrResult Demo.brokenAttrHtml None 0 Demo.info 0 "x-broken"
              Demo.brokenAttrs (mkLoc 0 40) (mkLoc 0 29) [] initialLocal
              Demo.emptyWorld 3 (Error "constructor failed")
              eq_refl eq_refl eq_refl eq_refl) as (_ & Hworld & Hrun & _).
  destruct (Hrun 0 (mkLocal 1 (-1) (Some 28) [0]) Demo.brokenWorld
              [CLit "<x-broken "; CAttr ("a=" +:+ dq +:+ "v" +:+ dq); CAttrCount 1]
              eq_refl eq_refl) as (o & da & Ho & _ & _ & H).
  injection Ho as <-.
  destruct (Hworld _ _ _ H) as (Hconsole & _ & Helements & _).
  split; [exact H|]. split; [exact Hconsole|]. split; [exact Helements|].
  vm_compute. reflexivity.
Defined.

Lemma handleAttrs_count_attribute_witness :
  handleAttrs (Demo.env Demo.divTable) Demo.divResult Demo.divHtml "div" None
    Demo.divAttrs initialLocal Demo.emptyWorld
  = (Ok (mkLocal 1 (-1) (Some 23) [0]), Demo.emptyWorld,
     [CLit "<div "; CAttr ("a=" +:+ dq +:+ "v" +:+ dq); CAttrCount 1]) ∧
  ∃ da,
    Forall (fun c => isCount c = false) da ∧
    [CLit "<div "; CAttr ("a=" +:+ dq +:+ "v" +:+ dq); CAttrCount 1]
      = da ++ (if 0 <? boundCount Demo.divAttrs
               then [CAttrCount (boundCount Demo.divAttrs)] else []) ∧
    lastOffset (mkLocal 1 (-1) (Some 23) [0])
      = cursorAfter Demo.divAttrs (lastOffset initialLocal) ∧
    chunk_text (CAttrCount (boundCount Demo.divAttrs))
      = " __lit-attr=" +:+ dq +:+ pretty (boundCount Demo.divAttrs) +:+ dq.
Proof.
  assert (Hrun : handleAttrs (Demo.env Demo.divTable) Demo.divResult Demo.divHtml "div"
                   None Demo.divAttrs initialLocal Demo.emptyWorld
                 = (Ok (mkLocal 1 (-1) (Some 23) [0]), Demo.emptyWorld,
                    [CLit "<div "; CAttr ("a=" +:+ dq +:+ "v" +:+ dq); CAttrCount 1])).
  { vm_compute. reflexivity. }
  split; [exact Hrun|].
  exact (handleAttrs_count_attribute _ _ _ _ _ _ _ _ _ _ _ Hrun).
Defined.


Lemma demo_collaboratorsBalanced (tbl : Demo.Table) : collaboratorsBalanced (Demo.env tbl).
Proof.
  intros cb [Hv Ht]. repeat split; intros; simpl.
  - apply balancedM_forEach. intros. apply Hv.
  - apply balancedM_ret.
  - apply balancedM_ret.
Qed.

Lemma demo_parser (tbl : Demo.Table) :
  forallb (fun e => bool_decide (is_Some e.2.2)) tbl = true →
  parserGivesChildNodes (Demo.env tbl).
Proof.
  intros Hall markup.
  change (parseFragment (Demo.env tbl) markup)
    with (inr (Demo.lookupHtml tbl markup) : Err + option (list Node)).
  unfold Demo.lookupHtml. destruct (List.find _ tbl) as [e|] eqn:Hf; [|discriminate].
  apply List.find_some in Hf as [Hin _]. rewrite forallb_forall in Hall.
  specialize (Hall e Hin). apply bool_decide_eq_true in Hall as [nodes Hnodes].
  rewrite Hnodes. discriminate.
Qed.

Lemma demo_empty_cache : cacheHasChildNodes Demo.emptyWorld.
Proof. intros i template H. simpl in H. by rewrite lookup_empty in H. Qed.



Lemma renderValue_array_witness :
  renderValue (Demo.env []) 2 (VArray [VPrim "a"; VUndefined]) None Demo.info
    Demo.emptyWorld
  = (Ok tt, Demo.emptyWorld,
     [COpen None; COpen None; CText "a"; CClose; COpen None; CClose; CClose]) ∧
  ∃ parts,
    dispatchedInOrder
      (fun item => renderValue (Demo.env []) 1 item None Demo.info)
      [VPrim "a"; VUndefined] Demo.emptyWorld parts Demo.emptyWorld ∧
    [COpen None; COpen None; CText "a"; CClose; COpen None; CClose; CClose]
      = COpen None :: concat parts ++ [CClose] ∧
    Forall2 (fun item part => ∃ mid, part = COpen (digestOf item) :: mid ++ [CClose])
      [VPrim "a"; VUndefined] parts.
Proof.
  assert (Hrun : renderValue (Demo.env []) 2 (VArray [VPrim "a"; VUndefined]) None
                   Demo.info Demo.emptyWorld
                 = (Ok tt, Demo.emptyWorld,
                    [COpen None; COpen None; CText "a"; CClose; COpen None; CClose;
                     CClose])).
  { vm_compute. reflexivity. }
  split; [exact Hrun|].
  exact (renderValue_array _ _ _ _ _ _ _ _ Hrun).
Defined.

(** * Further properties of the renderer *)

(** ** The template cache *)


(** A TemplateResult with the same text in another strings array is not
    served from the cache: the parser is called (and here throws). *)
Example getTemplate_other_strings_array :
  getTemplate Demo.faultyEnv (mkTemplateResult 99 [Demo.litHtml] [] "d9") Demo.litWorld
  = (Throw (Error "parse error"), Demo.litWorld, []).
Proof. reflexivity. Qed.

(** X2: a fault of the parser at the dispatch of a template that is not in the
    cache is thrown on by [renderValue] after the opening marker; nothing
    is cached. *)
Theorem renderValue_parser_fault
    (E : Env) (n : nat) (result : TemplateResult) (cr : option ChildRenderer)
    (ri : RenderInfo) (w : World) (e : Err) :
  templateCache w !! stringsId result = None →
  parseFragment E (getHTML E result) = inl e →
  renderValue E (S n) (VTemplate result) cr ri w
  = (Throw e, with_sets (fun s => s ++ [∅]) w, [COpen (Some (digest result))]).
Proof.
  intros Hmiss Hfault. unfold renderValue. simpl. unfold renderValue_body.
  unfold renderTemplateResult_body, renderTemplateResult_locals, getTemplate.
  unfold bind, emit, newSet. simpl. rewrite Hmiss, Hfault. reflexivity.
Qed.

(** ** Plain values *)

Lemma plainChunks_array E items :
  plainChunks E (VArray items)
  = COpen None :: flat_map (plainChunks E) items ++ [CClose].
Proof. reflexivity. Qed.

(** X3: the dispatch of a plain value (primitives, [undefined], [null],
    [nothing] and arrays of such) depends on nothing but the value: as
    soon as the bound on the call depth exceeds the nesting of its arrays
    it returns, leaves the world as it was and yields the value's text, or
    the chunks of the array's elements, between two bare markers. *)
Theorem plain_value_chunks (E : Env) (n : nat) :
  ∀ value cr ri w, plain value = true → arrayDepth value < n →
    renderValue E n value cr ri w = (Ok tt, w, plainChunks E value).
Proof.
  induction n as [|n IH]; intros value cr ri w Hplain Hdepth; [lia|].
  unfold renderValue. simpl cb_renderValue. unfold renderValue_body.
  destruct value; try discriminate; try reflexivity.
  rewrite plain_array in Hplain. rewrite arrayDepth_array in Hdepth.
  rewrite plainChunks_array.
  assert (Hitems : forEach items
            (fun item _ => cb_renderValue (generators E n) item cr ri) tt w
            = (Ok tt, w, flat_map (plainChunks E) items)).
  { clear -IH Hplain Hdepth. revert Hplain Hdepth.
    induction items as [|item items IHitems]; simpl; intros Hplain Hdepth;
      [reflexivity|].
    apply andb_prop in Hplain as [Hitem Hrest].
    assert (H1 := IH item cr ri w Hitem ltac:(lia)). unfold renderValue in H1.
    rewrite (bind_eq _ _ _ _ _ _ H1), IHitems; [reflexivity | exact Hrest | lia]. }
  unfold bind at 1. unfold bind at 1. unfold emit at 1. cbn beta iota.
  rewrite Hitems. reflexivity.
Qed.

(** ** getScopedStyles *)

Lemma cssTexts_array items : cssTexts (SArray items) = flat_map cssTexts items.
Proof. induction items as [|item items IH]; [reflexivity|]. simpl in *. by rewrite IH. Qed.

Lemma flatInfinity_array items :
  flatInfinity (SArray items) = flat_map flatInfinity items.
Proof. induction items as [|item items IH]; [reflexivity|]. simpl in *. by rewrite IH. Qed.

Lemma scoped_fold (css : string → string → string) (tagName : string)
    (l : list Styles) (acc : list string) :
  fold_left
    (fun scopedStyles style =>
       match style with
       | SCSSResult cssText => scopedStyles ++ [css cssText tagName]
       | _ => scopedStyles
       end) l acc
  = acc ++ flat_map (fun style =>
             match style with
             | SCSSResult cssText => [css cssText tagName]
             | _ => []
             end) l.
Proof.
  revert acc. induction l as [|style l IH]; intros acc; simpl.
  - by rewrite List.app_nil_r.
  - rewrite IH. destruct style; simpl; by rewrite <- ?List.app_assoc.
Qed.

Lemma flat_leaves (css : string → string → string) (tagName : string)
    (styles : Styles) :
  flat_map (fun style =>
     match style with
     | SCSSResult cssText => [css cssText tagName]
     | _ => []
     end) (flatInfinity styles)
  = (fun cssText => css cssText tagName) <$> cssTexts styles.
Proof.
  revert styles. fix IH 1. intros [cssText|items|]; try reflexivity.
  rewrite flatInfinity_array, cssTexts_array.
  induction items as [|item items IHitems]; [reflexivity|].
  simpl. rewrite List.flat_map_app, fmap_app, IH. f_equal. exact IHitems.
Qed.

Lemma getScopedStyles_flat_map
    (css : string → string → string) (definitions : list (string * Styles)) :
  getScopedStyles css definitions
  = flat_map
      (fun '(tagName, styles) => (fun cssText => css cssText tagName) <$> cssTexts styles)
      definitions.
Proof.
  unfold getScopedStyles.
  assert (H : ∀ acc,
    fold_left
      (fun scopedStyles '(tagName, styles) =>
         fold_left
           (fun scopedStyles style =>
              match style with
              | SCSSResult cssText => scopedStyles ++ [css cssText tagName]
              | _ => scopedStyles
              end)
           (flatInfinity styles) scopedStyles)
      definitions acc
    = acc ++ flat_map
        (fun '(tagName, styles) => (fun cssText => css cssText tagName) <$> cssTexts styles)
        definitions).
  { induction definitions as [|[tagName styles] definitions IH]; intros acc; simpl.
    - by rewrite List.app_nil_r.
    - rewrite IH, scoped_fold, flat_leaves. by rewrite <- List.app_assoc. }
  apply (H []).
Qed.

(** X4: [getScopedStyles] returns, definition by definition in the map's
    order, the transformed text of every CSSResult among the constructor's
    styles, in their order, however deep in arrays it is; it returns
    nothing for a value that is neither a CSSResult nor an array. *)
Theorem getScopedStyles_closed_form
    (css : string → string → string) (definitions : list (string * Styles)) :
  getScopedStyles css definitions
  = flat_map
      (fun '(tagName, styles) => (fun cssText => css cssText tagName) <$> cssTexts styles)
      definitions.
Proof. apply getScopedStyles_flat_map. Qed.

(** X5: the nesting of the style arrays does not matter: a constructor whose
    styles hold an array gives the same scoped styles as one whose styles
    hold that array's items in its place. *)
Theorem getScopedStyles_nesting
    (css : string → string → string) (before after : list (string * Styles))
    (tagName : string) (l1 l2 l3 : list Styles) :
  getScopedStyles css (before ++ (tagName, SArray (l1 ++ SArray l2 :: l3)) :: after)
  = getScopedStyles css (before ++ (tagName, SArray (l1 ++ l2 ++ l3)) :: after).
Proof.
  rewrite !getScopedStyles_flat_map, !List.flat_map_app. f_equal.
  cbn [flat_map]. f_equal. f_equal.
  rewrite !cssTexts_array, !List.flat_map_app. cbn [flat_map].
  by rewrite cssTexts_array.
Qed.

(** ** Literal markup *)

Lemma substring_whole (s : string) : String.substring 0 (String.length s) s = s.
Proof. induction s as [|c s IH]; [reflexivity|]. simpl. by rewrite IH. Qed.

Lemma Js_substring_whole (s : string) : Js.substring s (Some 0) None = s.
Proof.
  unfold Js.substring. cbn [default]. rewrite Nat.min_id. cbn [Nat.min Nat.max].
  rewrite Nat.sub_0_r. apply substring_whole.
Qed.

Lemma pop_push (entry : StackEntry) (w : World) :
  with_instances tail (with_instances (cons entry) w) = w.
Proof. by destruct w. Qed.

Lemma traverse_world (node : Node) (w : World) : with_instances (traverse node) w = w.
Proof. destruct w. unfold with_instances. simpl. by rewrite traverse_unchanged. Qed.

Lemma forEach_nothing {A S} (l : list A) (body : A → S → M S) (s : S) (w : World) :
  Forall (fun x => body x s w = (Ok s, w, [])) l →
  forEach l body s w = (Ok s, w, []).
Proof.
  induction 1 as [|x l Hx _ IH]; [reflexivity|].
  simpl. by rewrite (bind_eq _ _ _ _ _ _ Hx), IH.
Qed.

(** [handleNode] does nothing at an inert node. *)
Lemma handleNode_inert E cb result html cr claimedNodes ri node loc w :
  inert E (flattened ri) claimedNodes w node = true →
  handleNode E cb result html cr claimedNodes ri node loc w = (Ok loc, w, []).
Proof.
  unfold inert. intros H. apply andb_prop in H as [Hlit Hclaimed].
  apply negb_true_iff in Hclaimed.
  destruct node as [id data l|id value l|id tag attrs l startTag children];
    unfold handleNode.
  - simpl in Hlit. apply negb_true_iff in Hlit. by rewrite Hlit.
  - reflexivity.
  - simpl in Hlit. apply andb_prop in Hlit as [Hlit Hattrs].
    apply andb_prop in Hlit as [Hslot Hcustom].
    apply negb_true_iff in Hslot, Hcustom. apply Nat.eqb_eq in Hattrs.
    unfold bind at 1. unfold reads at 1. rewrite Hclaimed.
    assert (Hkind : handleElementKind E cb html cr ri
                      (Element id tag attrs l startTag children) tag startTag l loc w
                    = (Ok (None, false, loc), w, [])).
    { unfold handleElementKind. rewrite Hslot.
      destruct (Js.includesChar Js.hyphen tag); [|reflexivity].
      simpl in Hcustom. destruct (customElements_get E tag); [|reflexivity].
      exfalso. apply bool_decide_eq_false in Hcustom. apply Hcustom. by eexists. }
    rewrite (bind_eq _ _ _ _ _ _ Hkind). cbn beta iota.
    rewrite (bind_eq _ _ _ _ _ _ (handleAttrs_unbound _ _ _ _ _ _ _ _ Hattrs)).
    reflexivity.
Qed.

Lemma walk_inert E cb result html cr claimedNodes ri nodes loc w :
  forallb (inert E (flattened ri) claimedNodes w) nodes = true →
  forEach nodes (handleNode E cb result html cr claimedNodes ri) loc w = (Ok loc, w, []).
Proof.
  intros H. apply forEach_nothing. apply Forall_forall. intros node Hin.
  apply handleNode_inert. rewrite forallb_forall in H. apply H.
  by apply list_elem_of_In.
Qed.

Lemma handleTopLevel_inert E cb result html cr claimedNodes ri node loc w :
  slot ri = None →
  forallb (inert E (flattened ri) claimedNodes w) (depthFirst node) = true →
  handleTopLevel E cb result html cr claimedNodes ri node loc w = (Ok loc, w, []).
Proof.
  intros Hslot Hinert. unfold handleTopLevel. rewrite Hslot.
  destruct (isElement node).
  - unfold bind, push, pop, modify. rewrite traverse_world.
    rewrite walk_inert; [|exact Hinert]. by rewrite pop_push.
  - unfold bind, modify, ret. rewrite traverse_world.
    by rewrite walk_inert.
Qed.

Lemma literal_render
    (E : Env) (cb : Callbacks) (result : TemplateResult)
    (cr : option ChildRenderer) (claimedNodes : nat) (ri : RenderInfo)
    (w w0 : World) (template : Template) (nodes : list Node) :
  getTemplate E result w = (Ok template, w0, []) →
  ast_childNodes template = Some nodes →
  slot ri = None →
  forallb (fun node =>
    forallb (inert E (flattened ri) claimedNodes w0) (depthFirst node)) nodes = true →
  renderTemplateResult_locals E cb result cr claimedNodes ri w
  = if length (values result) =? 0
    then (Ok (mkLocal 0 (-1) None []), w0, [CLit (html template)])
    else (Throw (finalPartIndexError 0 (length (values result))), w0,
          [CLit (html template)]).
Proof.
  intros Hget Hnodes Hslot Hinert.
  unfold renderTemplateResult_locals.
  rewrite (bind_eq _ _ _ _ _ _ Hget), Hnodes.
  assert (Hloop : forEach nodes
            (handleTopLevel E cb result (html template) cr claimedNodes ri)
            initialLocal w0 = (Ok initialLocal, w0, [])).
  { apply forEach_nothing. apply Forall_forall. intros node Hin.
    apply handleTopLevel_inert; [exact Hslot|].
    rewrite forallb_forall in Hinert. apply Hinert. by apply list_elem_of_In. }
  rewrite (bind_eq _ _ _ _ _ _ Hloop).
  unfold yieldFlushTo, flushTo, initialLocal, bind, emit, ret, throw.
  cbn [lastOffset partIndex distributedIndex consumed]. rewrite Js_substring_whole.
  destruct (length (values result)); reflexivity.
Qed.

(** X6: a template whose nodes are all literal and unclaimed, rendered without
    a slot request, yields its markup unchanged as one chunk and leaves
    the world as [getTemplate] left it: it returns when the TemplateResult
    has no values, and otherwise throws the error about the final part
    index after that chunk. *)
Theorem renderTemplateResult_literal
    (E : Env) (cb : Callbacks) (result : TemplateResult)
    (cr : option ChildRenderer) (claimedNodes : nat) (ri : RenderInfo)
    (w w0 : World) (template : Template) (nodes : list Node) :
  getTemplate E result w = (Ok template, w0, []) →
  ast_childNodes template = Some nodes →
  slot ri = None →
  forallb (fun node =>
    forallb (inert E (flattened ri) claimedNodes w0) (depthFirst node)) nodes = true →
  renderTemplateResult_locals E cb result cr claimedNodes ri w
  = if length (values result) =? 0
    then (Ok (mkLocal 0 (-1) None []), w0, [CLit (html template)])
    else (Throw (finalPartIndexError 0 (length (values result))), w0,
          [CLit (html template)]).
Proof. apply literal_render. Qed.


(** ** Claimed nodes *)


(** ** Top-level nodes of a walk for a slot *)

Lemma handleTopLevel_unselected E cb result html cr claimedNodes ri sl node loc w :
  slot ri = Some sl →
  unselected sl node = true →
  handleTopLevel E cb result html cr claimedNodes ri node loc w
  = (Ok (if isElement node then skipTo (endOffset (node_loc node)) loc else loc), w, []).
Proof.
  intros Hslot Hun. unfold handleTopLevel, unselected in *. rewrite Hslot.
  destruct (isElement node).
  - apply negb_true_iff in Hun. rewrite Hun.
    unfold bind, push, pop, modify, ret. by rewrite pop_push.
  - apply negb_true_iff in Hun. rewrite Hun. reflexivity.
Qed.

(** X9: in a walk for a slot, top-level nodes that the slot does not select
    (elements with another [slot] attribute, and every node that is no
    element unless the slot is the unnamed one and the node is text) yield
    nothing and consume no value: the read cursor moves past the last
    element among them, and the world, with the instance stack, is as it
    was. *)
Theorem slot_walk_unselected
    (E : Env) (cb : Callbacks) (result : TemplateResult) (html : string)
    (cr : option ChildRenderer) (claimedNodes : nat) (ri : RenderInfo)
    (sl : SlotInfo) (nodes : list Node) (loc : Local) (w : World) :
  slot ri = Some sl →
  forallb (unselected sl) nodes = true →
  forEach nodes (handleTopLevel E cb result html cr claimedNodes ri) loc w
  = (Ok (mkLocal (partIndex loc) (distributedIndex loc)
           (cursorPast nodes (lastOffset loc)) (consumed loc)),
     w, []).
Proof.
  intros Hslot. revert loc. induction nodes as [|node nodes IH]; intros loc Hall.
  - by destruct loc.
  - simpl in Hall. apply andb_prop in Hall as [Hnode Hrest]. cbn [forEach].
    rewrite (bind_eq _ _ _ _ _ _
               (handleTopLevel_unselected E cb result html cr claimedNodes ri sl node
                  loc w Hslot Hnode)).
    rewrite (IH _ Hrest). unfold cursorPast. simpl.
    by destruct (isElement node).
Qed.

(** ** Values consumed by bound attributes *)

Lemma replaceMarkers_locals E result pieces loc :
  (replaceMarkers E result pieces loc).2
  = mkLocal (partIndex loc + length pieces) (distributedIndex loc) (lastOffset loc)
      (consumed loc ++ seq (partIndex loc) (length pieces)).
Proof.
  revert loc. induction pieces as [|piece pieces IH]; intros loc; simpl.
  - rewrite Nat.add_0_r, List.app_nil_r. by destruct loc.
  - specialize (IH (nextValue result loc).2). unfold nextValue in *. simpl in *.
    destruct (replaceMarkers E result pieces _) as [s loc2]. simpl in *. subst loc2.
    rewrite <- List.app_assoc. simpl. f_equal. lia.
Qed.

Lemma replaceAll_locals E result value loc :
  (replaceAll E result value loc).2
  = mkLocal (partIndex loc + (length (markerPieces E value) - 1)) (distributedIndex loc)
      (lastOffset loc)
      (consumed loc ++ seq (partIndex loc) (length (markerPieces E value) - 1)).
Proof.
  unfold replaceAll. destruct (markerPieces E value) as [|piece pieces]; simpl.
  - rewrite Nat.add_0_r, List.app_nil_r. by destruct loc.
  - pose proof (replaceMarkers_locals E result pieces loc) as H.
    destruct (replaceMarkers E result pieces loc) as [s loc1]. simpl in *.
    by rewrite Nat.sub_0_r.
Qed.

Lemma advanced_trans loc k1 loc1 k2 loc2 :
  advanced loc k1 loc1 → advanced loc1 k2 loc2 → advanced loc (k1 + k2) loc2.
Proof.
  intros (Hp1 & Hc1 & Hd1) (Hp2 & Hc2 & Hd2). repeat split.
  - lia.
  - rewrite Hc2, Hc1, Hp1, <- List.app_assoc. f_equal. symmetry. apply seq_app.
  - congruence.
Qed.

Lemma handleBoundAttr_advances E result html tag inst attr loc :
  post (handleBoundAttr E result html tag inst attr loc)
    (fun loc' _ => advanced loc (valuesOf E attr) loc').
Proof.
  unfold handleBoundAttr, valuesOf. unit_step.
  eapply post_bind with
    (P := fun loc1 _ =>
            advanced loc (if Js.startsWith (attr_name attr) "." then 1
                          else length (markerPieces E (attr_value attr)) - 1) loc1).
  - destruct (Js.startsWith (attr_name attr) ".").
    + destruct (lastAttributeName E _); [|apply post_throw].
      unfold nextValue. unit_step. unit_step. apply post_ret.
      repeat split; simpl; lia.
    + pose proof (replaceAll_locals E result (attr_value attr) loc) as Hrep.
      destruct (replaceAll E result (attr_value attr) loc) as [s loc1].
      unit_step. apply post_ret. simpl in Hrep. subst loc1. by repeat split.
  - intros loc1 ? Hloc1. apply post_ret. exact Hloc1.
Qed.

Lemma attrLoop_advances E result html tag inst attrs k loc :
  post (attrLoop E result html tag inst attrs k loc)
    (fun r _ => advanced loc (valuesOfAttrs E attrs) r.2).
Proof.
  revert k loc. induction attrs as [|attr attrs IH]; intros k loc; simpl.
  - apply post_ret. unfold valuesOfAttrs. simpl. repeat split; simpl;
      rewrite ?Nat.add_0_r, ?List.app_nil_r; reflexivity.
  - unfold valuesOfAttrs. simpl. destruct (isBound attr); [|apply IH].
    eapply post_bind; [apply handleBoundAttr_advances|].
    intros loc1 ? Hloc1. eapply post_weaken; [apply IH|].
    intros r ? Hr. simpl in *. eapply advanced_trans; eauto.
Qed.

(** X11: the attribute handling of a start tag consumes, from the part index
    on and in order, one value for each bound property and one for each
    marker in the value of each other bound attribute; it does not touch
    the distributed index. *)
Theorem handleAttrs_consumes
    (E : Env) (result : TemplateResult) (html tag : string) (inst : option nat)
    (attrs : list Attr) (loc loc' : Local) (w w' : World) (d : list Chunk) :
  handleAttrs E result html tag inst attrs loc w = (Ok loc', w', d) →
  partIndex loc' = partIndex loc + valuesOfAttrs E attrs ∧
  consumed loc' = consumed loc ++ seq (partIndex loc) (valuesOfAttrs E attrs) ∧
  distributedIndex loc' = distributedIndex loc.
Proof.
  unfold handleAttrs. intros H.
  apply bind_Ok in H as ([k loc1] & w1 & d1 & d2 & Hloop & Hrest & ->).
  apply attrLoop_advances in Hloop. simpl in Hloop.
  apply bind_Ok in Hrest as ([] & w2 & d3 & d4 & _ & Hret & ->).
  injection Hret as <- _ _. exact Hloop.
Qed.

(** ** Attribute handling without an instance *)


(** X14: with no instance in scope (the element is not a constructed custom
    element) the attribute handling only yields chunks: it leaves the
    world as it was, also when it throws. *)
Theorem handleAttrs_without_instance
    (E : Env) (result : TemplateResult) (html tag : string) (attrs : list Attr)
    (loc : Local) (w w' : World) (r : Res Local) (d : list Chunk) :
  handleAttrs E result html tag None attrs loc w = (r, w', d) → w' = w.
Proof. apply pureW_handleAttrs. Qed.

(** ** Component expansion *)

(** X15: at a registered custom element that is not claimed, has no bound
    attribute and whose constructor returns, with a non-empty instance
    stack: the new element is stored and assigned to the top entry of the
    stack, the start tag is flushed, a child renderer over the element's
    children is built at the current part index, the element renderer
    runs with it, and the distributed index becomes the child renderer's
    [renderedPartIndex] as it is afterwards. *)
Theorem handleNode_expands_component
    (E : Env) (cb : Callbacks) (result : TemplateResult) (html : string)
    (cr : option ChildRenderer) (claimedNodes : nat) (ri : RenderInfo)
    (id : nat) (tag : string) (attrs : list Attr) (l startTag : Location)
    (children : list Node) (loc : Local) (lo : nat) (w : World)
    (ctor : nat) (top : StackEntry) (rest : list StackEntry) :
  let inst := length (elements w) in
  let child :=
    LitHtmlChildRenderer (length (renderers w)) children html result (partIndex loc)
      claimedNodes in
  let w2 :=
    with_renderers (fun rs => rs ++ [initialRenderedPartIndex E (partIndex loc)])
      (with_instances (fun _ => mkEntry (tagName top) (Some inst) :: rest)
         (with_elements (fun els => els ++ [mkElementObj ctor []]) w)) in
  let flushed := CLit (Js.substring html (Some lo) (Some (endOffset startTag))) in
  isClaimed claimedNodes (Element id tag attrs l startTag children) w = false →
  Js.includesChar Js.hyphen tag = true →
  customElements_get E tag = Some ctor →
  construct E ctor = None →
  instances w = top :: rest →
  boundCount attrs = 0 →
  lastOffset loc = Some lo →
  handleNode E cb result html cr claimedNodes ri
      (Element id tag attrs l startTag children) loc w
  = match renderElement E cb inst child ri w2 with
    | (Ok _, w3, d3) =>
        (Ok (mkLocal (partIndex loc) (renderedPartIndex child w3)
               (Some (endOffset startTag)) (consumed loc)),
         w3, flushed :: d3)
    | (Throw e, w3, d3) => (Throw e, w3, flushed :: d3)
    | (OutOfFuel, w3, d3) => (OutOfFuel, w3, flushed :: d3)
    end.
Proof.
  intros inst child w2 flushed Hclaimed Hhyphen Hget Hctor Hstack Hattrs Hlo.
  unfold handleNode, handleElementKind.
  rewrite (hyphen_not_slot _ Hhyphen), Hhyphen, Hget. simpl andb. cbv iota.
  unfold bind at 1. unfold reads at 1. rewrite Hclaimed.
  unfold bind at 1. unfold bind at 1. unfold tryConstruct. rewrite Hctor.
  replace (instances (with_elements (fun els => els ++ [mkElementObj ctor []]) w))
    with (top :: rest) by (by rewrite <- Hstack).
  unfold ret at 1. cbn beta iota.
  rewrite (bind_eq _ _ _ _ _ _ (handleAttrs_unbound _ _ _ _ _ _ _ _ Hattrs)).
  cbn beta iota. unfold yieldFlushTo, flushTo. rewrite Hlo.
  unfold bind at 1. unfold bind at 1. unfold emit at 1. unfold ret at 1. cbn beta iota.
  unfold bind at 1. unfold newChildRenderer at 1. cbn beta iota.
  cbn [partIndex renderers with_instances with_elements]. fold inst.
  change (LitHtmlChildRenderer (length (renderers w)) children html result
            (partIndex loc) claimedNodes) with child.
  change (with_renderers _ _) with w2.
  unfold bind at 1.
  destruct (renderElement E cb inst child ri w2) as [[r3 w3] d3].
  destruct r3 as [[]| |]; try (simpl; by rewrite ?List.app_nil_r).
Qed.

(** ** The instance stack across a render *)

Section Keeps.

Variable R : World → World → Prop.
Hypothesis R_refl : ∀ w, R w w.
Hypothesis R_trans : ∀ w1 w2 w3, R w1 w2 → R w2 w3 → R w1 w3.

Lemma keeps_pure {A} (m : M A) : pureW m → keeps R m.
Proof. intros Hm w a w' d H. apply Hm in H as ->. apply R_refl. Qed.

Lemma keeps_ret {A} (a : A) : keeps R (ret a).
Proof. apply keeps_pure, pureW_ret. Qed.

Lemma keeps_bind {A B} (m : M A) (f : A → M B) :
  keeps R m → (∀ a, keeps R (f a)) → keeps R (bind m f).
Proof.
  intros Hm Hf w b w' d H.
  apply bind_Ok in H as (a & w1 & d1 & d2 & H1 & H2 & _).
  eapply R_trans; [eapply Hm | eapply Hf]; eauto.
Qed.

Lemma keeps_forEach {A S} (l : list A) (body : A → S → M S) (s : S) :
  (∀ x s, keeps R (body x s)) → keeps R (forEach l body s).
Proof.
  intros Hbody. revert s. induction l as [|x l IH]; intros s; simpl.
  - apply keeps_ret.
  - apply keeps_bind; [apply Hbody | apply IH].
Qed.

End Keeps.

Lemma sameStack_refl w : sameStack w w.
Proof. reflexivity. Qed.
Lemma sameStack_trans w1 w2 w3 : sameStack w1 w2 → sameStack w2 w3 → sameStack w1 w3.
Proof. unfold sameStack. congruence. Qed.
Lemma sameBelowTop_refl w : sameBelowTop w w.
Proof. reflexivity. Qed.
Lemma sameBelowTop_trans w1 w2 w3 :
  sameBelowTop w1 w2 → sameBelowTop w2 w3 → sameBelowTop w1 w3.
Proof. unfold sameBelowTop. congruence. Qed.

Lemma keeps_below {A} (m : M A) : keeps sameStack m → keeps sameBelowTop m.
Proof. intros H w a w' d Hm. apply H in Hm. unfold sameBelowTop. by rewrite Hm. Qed.

Lemma pureW_yieldFlushTo html o loc : pureW (yieldFlushTo html o loc).
Proof.
  unfold yieldFlushTo. destruct (flushTo html o loc) as [e|[s loc']].
  - apply pureW_throw.
  - apply pureW_bind; [apply pureW_emit | intros; apply pureW_ret].
Qed.

Lemma pureW_reads {A} (g : World → A) : pureW (reads g).
Proof. by intros w r w' d [= _ <- _]. Qed.

Ltac stack_step :=
  first [ apply keeps_ret; exact sameStack_refl
        | apply keeps_pure; [exact sameStack_refl|];
          first [apply pureW_emit | apply pureW_throw | apply pureW_yieldFlushTo
                | apply pureW_reads | apply pureW_ret]
        | apply keeps_bind; [exact sameStack_trans| |intros] ].

Lemma keeps_modify_other (g : World → World) :
  (∀ w, instances (g w) = instances w) → keeps sameStack (modify g).
Proof. intros Hg w a w' d [= _ <- _]. apply Hg. Qed.

Lemma keeps_handleAttrs E result html tag inst attrs loc :
  keeps sameStack (handleAttrs E result html tag inst attrs loc).
Proof.
  assert (Hbound : ∀ attr loc,
            keeps sameStack (handleBoundAttr E result html tag inst attr loc)).
  { intros attr loc0. unfold handleBoundAttr. repeat stack_step.
    destruct (Js.startsWith (attr_name attr) ".").
    - destruct (lastAttributeName E _); [|stack_step].
      destruct (nextValue result loc0) as [value loc1]. stack_step.
      + destruct inst; [|stack_step]. by apply keeps_modify_other.
      + stack_step; [|stack_step].
        destruct (reflectedAttributeName E tag _); stack_step.
    - destruct (replaceAll E result (attr_value attr) loc0) as [s loc1].
      repeat stack_step. }
  unfold handleAttrs. stack_step.
  - generalize 0. revert loc. induction attrs as [|attr attrs IH]; intros loc k; simpl.
    + stack_step.
    + destruct (isBound attr); [|apply IH]. stack_step; [apply Hbound | apply IH].
  - destruct a as [k loc1]. stack_step; [|stack_step].
    destruct (0 <? k); stack_step.
Qed.

Section Stack.

Variable E : Env.
Variable cb : Callbacks.
Hypothesis collaborators : collaboratorsKeepStack E.
Hypothesis callbacks : callbacksKeepStack cb.

Lemma keeps_tryConstruct ctor : keeps sameBelowTop (tryConstruct E ctor).
Proof.
  intros w a w' d. unfold tryConstruct. destruct (construct E ctor).
  - by intros [= _ <- _].
  - destruct w as [stack ? ? ? ? ?]. simpl. destruct stack; by intros [= _ <- _].
Qed.

Lemma keeps_handleNode result html cr claimedNodes ri node loc :
  keeps sameBelowTop (handleNode E cb result html cr claimedNodes ri node loc) ∧
  (isElement node = false →
   keeps sameStack (handleNode E cb result html cr claimedNodes ri node loc)).
Proof.
  destruct collaborators as [_ Hcollab]. specialize (Hcollab cb callbacks).
  destruct Hcollab as (_ & Hchildren & Helement).
  assert (Hcomment : ∀ id data l,
    keeps sameStack (handleNode E cb result html cr claimedNodes ri
                       (CommentNode id data l) loc)).
  { intros id data l. unfold handleNode.
    destruct (String.eqb data (marker E)); [|stack_step]. stack_step; [stack_step|].
    destruct (nextValue result (skipTo (endOffset l) a)) as [value loc3].
    destruct (Z.of_nat (partIndex loc3) <=? distributedIndex loc3)%Z;
      (stack_step; [|stack_step]); [stack_step | apply callbacks]. }
  destruct node as [id data l|id value l|id tag attrs l startTag children].
  - split; [apply keeps_below|intros _]; apply Hcomment.
  - split; [apply keeps_below|intros _]; stack_step.
  - split; [|discriminate]. unfold handleNode.
    apply keeps_bind; [exact sameBelowTop_trans| |].
    { apply keeps_pure; [exact sameBelowTop_refl | apply pureW_reads]. }
    intros [].
    { apply keeps_below. repeat stack_step. }
    apply keeps_bind; [exact sameBelowTop_trans| |].
    { unfold handleElementKind. destruct (String.eqb tag "slot" && flattened ri).
      - apply keeps_below. stack_step; [stack_step|]. stack_step; [|stack_step].
        destruct cr; [apply Hchildren | stack_step].
      - destruct (Js.includesChar Js.hyphen tag);
          [|apply keeps_below; stack_step].
        destruct (customElements_get E tag); [|apply keeps_below; stack_step].
        apply keeps_bind; [exact sameBelowTop_trans | apply keeps_tryConstruct|].
        intros. apply keeps_below. stack_step. }
    intros [[inst writeTag] loc1]. apply keeps_below.
    stack_step; [apply keeps_handleAttrs|].
    stack_step. { destruct writeTag; stack_step. }
    destruct inst as [inst|]; [|stack_step].
    stack_step.
    { intros w a' w' d. unfold newChildRenderer. by intros [= _ <- _]. }
    stack_step; [apply Helement|]. repeat stack_step.
Qed.

Lemma keeps_handleTopLevel result html cr claimedNodes ri node loc :
  keeps sameStack (handleTopLevel E cb result html cr claimedNodes ri node loc).
Proof.
  assert (Hwalk : ∀ nodes loc',
    keeps sameBelowTop
      (forEach nodes (handleNode E cb result html cr claimedNodes ri) loc')).
  { intros. apply keeps_forEach;
      [exact sameBelowTop_refl | exact sameBelowTop_trans |].
    intros. apply keeps_handleNode. }
  set (inner := fun loc0 : Local =>
    match slot ri with
    | Some sl =>
        if isElement node then
          if sameName (getAttr node "slot") (slotName sl) then
            bind (forEach (depthFirst node)
                    (handleNode E cb result html cr claimedNodes ri)
                    (skipTo (startOffset (node_loc node)) loc0))
              (fun loc1 => yieldFlushTo html (Some (endOffset (node_loc node))) loc1)
          else ret (skipTo (endOffset (node_loc node)) loc0)
        else if sameName (slotName sl) None && isTextNode node
             then forEach (depthFirst node)
                    (handleNode E cb result html cr claimedNodes ri) loc0
             else ret loc0
    | None =>
        bind (modify (with_instances (traverse node)))
          (fun _ => forEach (depthFirst node)
                      (handleNode E cb result html cr claimedNodes ri) loc0)
    end).
  assert (Hbelow : keeps sameBelowTop (inner loc)).
  { unfold inner. destruct (slot ri) as [sl|].
    - destruct (isElement node).
      + destruct (sameName _ _).
        * apply keeps_bind; [exact sameBelowTop_trans | apply Hwalk|].
          intros. apply keeps_pure; [exact sameBelowTop_refl | apply pureW_yieldFlushTo].
        * apply keeps_ret. exact sameBelowTop_refl.
      + destruct (sameName (slotName sl) None && isTextNode node);
          [apply Hwalk | apply keeps_ret; exact sameBelowTop_refl].
    - apply keeps_bind; [exact sameBelowTop_trans| |intros; apply Hwalk].
      intros w a w' d [= _ <- _]. by rewrite traverse_world. }
  assert (Hsame : isElement node = false → keeps sameStack (inner loc)).
  { intros Hnode. unfold inner.
    assert (Hone : ∀ loc', keeps sameStack
              (forEach (depthFirst node)
                 (handleNode E cb result html cr claimedNodes ri) loc')).
    { intros loc'. destruct node; try discriminate; cbn [depthFirst forEach].
      - stack_step; [apply keeps_handleNode; reflexivity | stack_step].
      - stack_step. }
    destruct (slot ri) as [sl|].
    - rewrite Hnode.
      destruct (sameName (slotName sl) None && isTextNode node);
        [apply Hone | stack_step].
    - stack_step; [|apply Hone].
      intros w a w' d [= _ <- _]. by rewrite traverse_world. }
  unfold handleTopLevel. fold (inner loc).
  destruct (isElement node) eqn:Hnode.
  - intros w a w' d H.
    apply bind_Ok in H as ([] & w1 & d1 & d2 & Hpush & H & _).
    apply bind_Ok in H as (loc1 & w2 & d3 & d4 & Hinner & H & _).
    apply bind_Ok in H as ([] & w3 & d5 & d6 & Hpop & Hret & _).
    injection Hpush as <- _. injection Hpop as <- _. injection Hret as _ <- _.
    apply Hbelow in Hinner. unfold sameStack, sameBelowTop in *.
    destruct w. simpl in *. destruct w2. simpl in *. exact Hinner.
  - stack_step; [stack_step|]. stack_step; [by apply Hsame|]. repeat stack_step.
Qed.

Lemma keeps_renderTemplateResult_body result cr claimedNodes ri :
  keeps sameStack (renderTemplateResult_body E cb result cr claimedNodes ri).
Proof.
  unfold renderTemplateResult_body, renderTemplateResult_locals.
  stack_step; [|stack_step]. stack_step.
  { intros w a w' d. unfold getTemplate.
    destruct (templateCache w !! stringsId result); [by intros [= _ <- _]|].
    destruct (parseFragment E _); [discriminate | by intros [= _ <- _]]. }
  destruct (ast_childNodes a) as [nodes|]; [|stack_step].
  stack_step.
  { apply keeps_forEach; [exact sameStack_refl | exact sameStack_trans |].
    intros. apply keeps_handleTopLevel. }
  stack_step; [stack_step|].
  destruct (partIndex a1 =? length (values result)); stack_step.
Qed.

Lemma keeps_renderValue_body value cr ri :
  keeps sameStack (renderValue_body E cb value cr ri).
Proof.
  destruct collaborators as [Hlight Hcollab]. specialize (Hcollab cb callbacks).
  destruct Hcollab as (Hrepeat & _ & _).
  unfold renderValue_body. stack_step; [|stack_step].
  destruct value;
    (apply keeps_bind; [exact sameStack_trans | stack_step | intros]);
    try (solve [stack_step]).
  - stack_step; [|apply keeps_renderTemplateResult_body].
    intros w0 a0 w' d. unfold newSet. by intros [= _ <- _].
  - apply Hrepeat.
  - unfold renderLightBranch. stack_step; [stack_step|].
    match goal with s : list StackEntry |- _ => destruct s as [|top stack] end;
      [stack_step|].
    destruct (instance top) as [inst|]; [|stack_step].
    stack_step; [|apply callbacks].
    intros w a' w' d. specialize (Hlight inst w).
    destruct (renderLight E inst w) as [r w1]. simpl in Hlight.
    by intros [= _ <- _].
  - apply keeps_forEach; [exact sameStack_refl | exact sameStack_trans |].
    intros. apply callbacks.
Qed.

End Stack.

Lemma generators_keep_stack (E : Env) (n : nat) :
  collaboratorsKeepStack E → callbacksKeepStack (generators E n).
Proof.
  intros HE. induction n as [|n IH].
  - split; intros; intros w a w' d; discriminate.
  - split; intros; simpl.
    + by apply keeps_renderValue_body.
    + by apply keeps_renderTemplateResult_body.
Qed.

(** X16: when the collaborators leave the instance stack as they find it, so
    does every render that returns: each entry [renderTemplateResult]
    pushes for a top-level element is popped again, and the instances
    assigned during the walk are assigned to that entry. *)
Theorem render_restores_instance_stack
    (E : Env) (n : nat) (w w' : World) (d : list Chunk) :
  collaboratorsKeepStack E →
  (∀ value cr ri,
     renderValue E n value cr ri w = (Ok tt, w', d) → instances w' = instances w) ∧
  (∀ result cr claimedNodes ri,
     renderTemplateResult E n result cr claimedNodes ri w = (Ok tt, w', d) →
     instances w' = instances w).
Proof.
  intros HE. destruct (generators_keep_stack E n HE) as [Hv Ht].
  split; intros; [eapply Hv | eapply Ht]; eauto.
Qed.

(** ** Resolved attributes *)

Lemma replaceMarkers_text E result pieces loc :
  (replaceMarkers E result pieces loc).1
  = interleave E (valuesFrom result (partIndex loc) (length pieces)) pieces.
Proof.
  revert loc. induction pieces as [|piece pieces IH]; intros loc; [reflexivity|].
  simpl. specialize (IH (nextValue result loc).2). unfold nextValue in *. simpl in *.
  destruct (replaceMarkers E result pieces _) as [s loc2]. simpl in *. by rewrite IH.
Qed.

(** X12: a bound attribute that is no property yields the markup before it and
    then the attribute under its name without the reserved suffix, its
    value made of the pieces around the markers with, in place of the
    markers, the values from the part index on, in order (the result of a
    class-map directive, or the string of any other value); it consumes
    those values, moves the cursor to the attribute's end and leaves the
    world as it was. *)
Theorem handleBoundAttr_plain_attribute
    (E : Env) (result : TemplateResult) (html tag : string) (inst : option nat)
    (attr : Attr) (loc : Local) (w : World) (piece : string) (pieces : list string) :
  Js.startsWith (attr_name attr) "." = false →
  markerPieces E (attr_value attr) = piece :: pieces →
  handleBoundAttr E result html tag inst attr loc w
  = (Ok (mkLocal (partIndex loc + length pieces) (distributedIndex loc)
           (Some (endOffset (attr_loc attr)))
           (consumed loc ++ seq (partIndex loc) (length pieces))),
     w,
     [CLit (Js.substring html (lastOffset loc) (Some (startOffset (attr_loc attr))));
      CAttr (Js.substring (attr_name attr) (Some 0)
               (Some (String.length (attr_name attr) - 5))
             +:+ "=" +:+ dq +:+
             (piece +:+
              interleave E (valuesFrom result (partIndex loc) (length pieces)) pieces)
             +:+ dq)]).
Proof.
  intros Hplain Hpieces. unfold handleBoundAttr. rewrite Hplain.
  unfold replaceAll. rewrite Hpieces.
  pose proof (replaceMarkers_text E result pieces loc) as Htext.
  pose proof (replaceMarkers_locals E result pieces loc) as Hlocals.
  destruct (replaceMarkers E result pieces loc) as [s loc1]. simpl in Htext, Hlocals.
  subst s loc1. reflexivity.
Qed.

(** X13: a bound property of a constructed element consumes the value at the
    part index and assigns it to the element under the property's name
    (the attribute name of the template string before the value, without
    its leading dot), the element's earlier properties kept; it yields the
    markup before the attribute and, when the property is reflected, the
    reflecting attribute with the value's string. *)
Theorem handleBoundAttr_property
    (E : Env) (result : TemplateResult) (html tag : string) (inst : nat)
    (attr : Attr) (loc : Local) (w : World) (group2 : string) (el : ElementObj) :
  let propertyName := Js.slice1 group2 in
  let value := nth (partIndex loc) (values result) VUndefined in
  let w' :=
    with_elements
      (<[inst := mkElementObj (el_ctor el) ((propertyName, value) :: el_props el)]>) w in
  Js.startsWith (attr_name attr) "." = true →
  lastAttributeName E (nth (partIndex loc) (strings result) "undefined") = Some group2 →
  elements w !! inst = Some el →
  handleBoundAttr E result html tag (Some inst) attr loc w
  = (Ok (mkLocal (S (partIndex loc)) (distributedIndex loc)
           (Some (endOffset (attr_loc attr))) (consumed loc ++ [partIndex loc])),
     w',
     CLit (Js.substring html (lastOffset loc) (Some (startOffset (attr_loc attr)))) ::
     match reflectedAttributeName E tag propertyName with
     | Some reflectedName =>
         [CAttr (reflectedName +:+ "=" +:+ dq +:+ String_ E value +:+ dq)]
     | None => []
     end) ∧
  elements w' !! inst
  = Some (mkElementObj (el_ctor el) ((propertyName, value) :: el_props el)).
Proof.
  intros propertyName value w' Hprop Hname Hel. split.
  - unfold handleBoundAttr. rewrite Hprop, Hname. unfold nextValue.
    unfold bind, emit, ret, setProperty, modify. fold propertyName value.
    cbn beta iota. unfold w', with_elements. rewrite Hel.
    destruct (reflectedAttributeName E tag propertyName); reflexivity.
  - unfold w'. destruct w. simpl in *. apply list_lookup_insert_eq.
    by eapply lookup_lt_Some.
Qed.

(** ** The node a slot selects *)

(** X10: in a walk for a slot, a top-level element whose [slot] attribute is
    the requested name, and whose nodes are all inert, yields its own
    markup, from its start to its end, as one chunk and nothing of what is
    before it; the instance stack is as it was. *)
Theorem handleTopLevel_selected_literal
    (E : Env) (cb : Callbacks) (result : TemplateResult) (html : string)
    (cr : option ChildRenderer) (claimedNodes : nat) (ri : RenderInfo)
    (sl : SlotInfo) (node : Node) (loc : Local) (w : World) :
  slot ri = Some sl →
  isElement node = true →
  getAttr node "slot" = slotName sl →
  forallb (inert E (flattened ri) claimedNodes w) (depthFirst node) = true →
  handleTopLevel E cb result html cr claimedNodes ri node loc w
  = (Ok (mkLocal (partIndex loc) (distributedIndex loc)
           (Some (endOffset (node_loc node))) (consumed loc)),
     w,
     [CLit (Js.substring html (Some (startOffset (node_loc node)))
              (Some (endOffset (node_loc node))))]).
Proof.
  intros Hslot Hel Hname Hinert. unfold handleTopLevel. rewrite Hslot, Hel.
  unfold sameName. rewrite bool_decide_eq_true_2 by exact Hname.
  unfold bind at 1. unfold push at 1. unfold modify at 1. cbn beta iota.
  unfold bind at 1. unfold bind at 1.
  rewrite walk_inert; [|exact Hinert].
  unfold yieldFlushTo, flushTo, skipTo. cbn [lastOffset partIndex distributedIndex consumed].
  unfold bind, emit, ret, pop, modify. cbn beta iota. by rewrite pop_push.
Qed.

(** ** The further properties at concrete inputs *)


Lemma renderValue_parser_fault_witness :
  renderValue Demo.faultyEnv 1 (VTemplate Demo.litResult) None Demo.info Demo.emptyWorld
  = (Throw (Error "parse error"), with_sets (fun s => s ++ [∅]) Demo.emptyWorld,
     [COpen (Some "d9")]).
Proof.
  apply (renderValue_parser_fault Demo.faultyEnv 0 Demo.litResult None Demo.info
           Demo.emptyWorld (Error "parse error")); reflexivity.
Defined.

Lemma plain_value_chunks_witness :
  renderValue (Demo.env []) 3 (VArray [VPrim "a"; VArray []; VNull]) None Demo.info
    Demo.emptyWorld
  = (Ok tt, Demo.emptyWorld,
     [COpen None; COpen None; CText "a"; CClose; COpen None; CClose;
      COpen None; CClose; CClose]).
Proof.
  apply (plain_value_chunks (Demo.env []) 3 (VArray [VPrim "a"; VArray []; VNull]) None
           Demo.info Demo.emptyWorld); [reflexivity | vm_compute; lia].
Defined.

Lemma renderTemplateResult_literal_witness :
  renderTemplateResult_locals (Demo.env Demo.litTable)
    (generators (Demo.env Demo.litTable) 0) Demo.litResult None 0 Demo.info
    Demo.emptyWorld
  = (Ok (mkLocal 0 (-1) None []), Demo.litWorld, [CLit "<div><p>hi</p></div>"]).
Proof.
  rewrite (renderTemplateResult_literal (Demo.env Demo.litTable)
             (generators (Demo.env Demo.litTable) 0) Demo.litResult None 0 Demo.info
             Demo.emptyWorld Demo.litWorld
             (mkTemplate Demo.litHtml (Some [Demo.litNode])) [Demo.litNode]);
    reflexivity.
Defined.



Lemma slot_walk_unselected_witness :
  forEach [Demo.lightY; TextNode 9 "t" (mkLoc 17 17)]
    (handleTopLevel (Demo.env []) (generators (Demo.env []) 0) Demo.lightResult
       Demo.lightHtml None 0 Demo.slotX)
    initialLocal Demo.emptyWorld
  = (Ok (mkLocal 0 (-1) (Some 17) []), Demo.emptyWorld, []).
Proof.
  apply (slot_walk_unselected (Demo.env []) (generators (Demo.env []) 0)
           Demo.lightResult Demo.lightHtml None 0 Demo.slotX (mkSlotInfo (Some "x"))
           [Demo.lightY; TextNode 9 "t" (mkLoc 17 17)] initialLocal Demo.emptyWorld);
    reflexivity.
Defined.

Lemma handleTopLevel_selected_literal_witness :
  handleTopLevel (Demo.env []) (generators (Demo.env []) 0) Demo.lightResult
    Demo.lightHtml None 0 Demo.slotX Demo.lightX (mkLocal 0 (-1) (Some 17) [])
    Demo.emptyWorld
  = (Ok (mkLocal 0 (-1) (Some 34) []), Demo.emptyWorld,
     [CLit ("<p slot=" +:+ dq +:+ "x" +:+ dq +:+ ">b</p>")]).
Proof.
  apply (handleTopLevel_selected_literal (Demo.env []) (generators (Demo.env []) 0)
           Demo.lightResult Demo.lightHtml None 0 Demo.slotX (mkSlotInfo (Some "x"))
           Demo.lightX (mkLocal 0 (-1) (Some 17) []) Demo.emptyWorld); reflexivity.
Defined.

Lemma demo_run_handleAttrs :
  handleAttrs (Demo.env Demo.divTable) Demo.divResult Demo.divHtml "div" None
    Demo.divAttrs initialLocal Demo.emptyWorld
  = (Ok (mkLocal 1 (-1) (Some 23) [0]), Demo.emptyWorld,
     [CLit "<div "; CAttr ("a=" +:+ dq +:+ "v" +:+ dq); CAttrCount 1]).
Proof. vm_compute. reflexivity. Qed.

Lemma handleAttrs_consumes_witness :
  partIndex (mkLocal 1 (-1) (Some 23) [0])
    = partIndex initialLocal + valuesOfAttrs (Demo.env Demo.divTable) Demo.divAttrs ∧
  consumed (mkLocal 1 (-1) (Some 23) [0])
    = consumed initialLocal ++
      seq (partIndex initialLocal) (valuesOfAttrs (Demo.env Demo.divTable) Demo.divAttrs) ∧
  distributedIndex (mkLocal 1 (-1) (Some 23) [0]) = distributedIndex initialLocal.
Proof.
  exact (handleAttrs_consumes _ _ _ _ _ _ _ _ _ _ _ demo_run_handleAttrs).
Defined.

Lemma handleAttrs_without_instance_witness :
  (handleAttrs (Demo.env Demo.divTable) Demo.divResult Demo.divHtml "div" None
     Demo.divAttrs initialLocal Demo.hostWorld).1.2 = Demo.hostWorld.
Proof.
  destruct (handleAttrs (Demo.env Demo.divTable) Demo.divResult Demo.divHtml "div" None
              Demo.divAttrs initialLocal Demo.hostWorld) as [[r w'] d] eqn:Hrun.
  exact (handleAttrs_without_instance _ _ _ _ _ _ _ _ _ _ Hrun).
Defined.

Lemma handleNode_expands_component_witness :
  handleNode (Demo.env []) (generators (Demo.env []) 0) Demo.outerResult Demo.outerHtml
    None 0 Demo.info Demo.outerNode initialLocal Demo.hostWorld
  = (Ok (mkLocal 0 (-1) (Some 9) []),
     with_renderers (fun _ => [(-1)%Z])
       (with_instances (fun _ => [mkEntry "x-outer" (Some 0)])
          (with_elements (fun _ => [mkElementObj 1 []]) Demo.emptyWorld)),
     [CLit "<x-outer>"]).
Proof.
  unfold Demo.outerNode.
  rewrite (handleNode_expands_component (Demo.env []) (generators (Demo.env []) 0)
             Demo.outerResult Demo.outerHtml None 0 Demo.info 0 "x-outer" []
             (mkLoc 0 19) (mkLoc 0 9) [] initialLocal 0 Demo.hostWorld 1
             (mkEntry "x-outer" None) []); reflexivity.
Defined.

Lemma demo_collaboratorsKeepStack (tbl : Demo.Table) :
  collaboratorsKeepStack (Demo.env tbl).
Proof.
  split.
  - intros inst w. simpl. unfold Demo.lightOf. by destruct (elements w !! inst).
  - intros cb [Hv Ht]. repeat split; intros; simpl.
    + apply keeps_forEach; [exact sameStack_refl | exact sameStack_trans|].
      intros. apply Hv.
    + apply keeps_ret. exact sameStack_refl.
    + apply keeps_ret. exact sameStack_refl.
Qed.

Lemma render_restores_instance_stack_witness :
  ∃ w' d,
    renderTemplateResult (Demo.env Demo.nestedTable) 3 Demo.nestedResult None 0
      Demo.info Demo.hostWorld = (Ok tt, w', d) ∧
    instances w' = [mkEntry "x-outer" None] ∧
    elements w' = [mkElementObj 1 []; mkElementObj 2 []].
Proof.
  destruct (renderTemplateResult (Demo.env Demo.nestedTable) 3 Demo.nestedResult None 0
              Demo.info Demo.hostWorld) as [[r w'] d] eqn:Hrun.
  assert (Hr : r = Ok tt ∧ elements w' = [mkElementObj 1 []; mkElementObj 2 []]).
  { vm_compute in Hrun. injection Hrun as <- <- _. by split. }
  destruct Hr as [-> Hels]. exists w', d. repeat split; [|exact Hels].
  destruct (render_restores_instance_stack (Demo.env Demo.nestedTable) 3
              Demo.hostWorld w' d (demo_collaboratorsKeepStack _)) as [_ H].
  exact (H _ _ _ _ Hrun).
Defined.

Lemma handleBoundAttr_plain_attribute_witness :
  handleBoundAttr (Demo.env Demo.helloTable) Demo.helloResult Demo.helloHtml "div" None
    (mkAttr "class$lit$" "{{lit-7}}" (mkLoc 5 27)) initialLocal Demo.emptyWorld
  = (Ok (mkLocal 1 (-1) (Some 27) [0]), Demo.emptyWorld,
     [CLit "<div "; CAttr ("class=" +:+ dq +:+ "a" +:+ dq)]).
Proof.
  rewrite (handleBoundAttr_plain_attribute (Demo.env Demo.helloTable) Demo.helloResult
             Demo.helloHtml "div" None (mkAttr "class$lit$" "{{lit-7}}" (mkLoc 5 27))
             initialLocal Demo.emptyWorld EmptyString [EmptyString]); reflexivity.
Defined.

Lemma handleBoundAttr_property_witness :
  handleBoundAttr (Demo.env []) Demo.propResult Demo.propHtml "x-outer" (Some 0)
    Demo.propAttr (mkLocal 0 (-1) (Some 0) []) Demo.builtWorld
  = (Ok (mkLocal 1 (-1) (Some 31) [0]),
     with_elements (fun _ => [mkElementObj 1 [("prop", VPrim "v")]]) Demo.emptyWorld,
     [CLit "<x-outer "]).
Proof.
  destruct (handleBoundAttr_property (Demo.env []) Demo.propResult Demo.propHtml
              "x-outer" 0 Demo.propAttr (mkLocal 0 (-1) (Some 0) []) Demo.builtWorld
              ".prop" (mkElementObj 1 []) eq_refl eq_refl eq_refl) as [H _].
  exact H.
Defined.
